(** * fetch_all_products.py: extraction, classification, deduplication, export

    A shallow embedding of [fetch_all_products.py].  Python [str] values are
    sequences of Unicode code points; effects (HTTP requests, the browser
    driver, [print], file writes, exceptions) are made explicit through a
    writer/exception monad over an environment that answers the requests. *)

From Stdlib Require Import NArith Ascii String.
From stdpp Require Import base decidable option numbers list sorting countable gmap.

Local Open Scope N_scope.
Set Warnings "-clear-no-such-hyp".

(** ** Python strings *)

(** A Python [str]: the sequence of its code points. *)
Abbreviation pystr := (list N).

(** An ASCII literal as a [str]. *)
Definition py (s : string) : pystr := map N_of_ascii (list_ascii_of_string s).

Module Str.

(** [str.isspace] on one code point, which is also what [\s] matches in a
    [str] pattern of [re]: the ASCII table of CPython (TAB..CR, FS..US,
    SPACE) and the Unicode White_Space/bidirectional-separator points. *)
Definition isspace (c : N) : bool :=
  ((9 <=? c) && (c <=? 13)) || ((28 <=? c) && (c <=? 32))
  || (c =? 133) || (c =? 160) || (c =? 5760)
  || ((8192 <=? c) && (c <=? 8202))
  || (c =? 8232) || (c =? 8233) || (c =? 8239) || (c =? 8287) || (c =? 12288).

(** The line boundaries of [str.splitlines]: LF, VT, FF, CR, FS, GS, RS,
    NEL, LS, PS. *)
Definition islinebreak (c : N) : bool :=
  ((10 <=? c) && (c <=? 13)) || ((28 <=? c) && (c <=? 30))
  || (c =? 133) || (c =? 8232) || (c =? 8233).

(** [s.lstrip(chars)], [s.rstrip(chars)], [s.strip(chars)], the set of
    characters given as a predicate. *)
Fixpoint lstrip_by (p : N → bool) (s : pystr) : pystr :=
  match s with
  | [] => []
  | c :: rest => if p c then lstrip_by p rest else s
  end.

Definition rstrip_by (p : N → bool) (s : pystr) : pystr :=
  rev (lstrip_by p (rev s)).

Definition strip_by (p : N → bool) (s : pystr) : pystr :=
  rstrip_by p (lstrip_by p s).

(** [s.strip()] with no argument strips whitespace. *)
Definition strip (s : pystr) : pystr := strip_by isspace s.

(** [re.sub(cls+, r, s)] for a character class [cls]: every maximal run
    of code points in the class becomes the single code point [r].
    [in_run] tells that the previous code point was in the class. *)
Fixpoint sub_runs_from (cls : N → bool) (r : N) (in_run : bool) (s : pystr)
  : pystr :=
  match s with
  | [] => []
  | c :: rest =>
      if cls c
      then (if in_run then sub_runs_from cls r true rest
            else r :: sub_runs_from cls r true rest)
      else c :: sub_runs_from cls r false rest
  end.

Definition sub_runs (cls : N → bool) (r : N) (s : pystr) : pystr :=
  sub_runs_from cls r false s.

(** [re.sub(r'\s+', ' ', s)]. *)
Definition collapse_ws (s : pystr) : pystr := sub_runs isspace 32 s.

(** [s.startswith(p)]. *)
Fixpoint startswith (p s : pystr) : bool :=
  match p, s with
  | [], _ => true
  | _ :: _, [] => false
  | a :: p', b :: s' => (a =? b) && startswith p' s'
  end.

(** [p in s] for strings: [p] occurs as a contiguous block of [s]. *)
Fixpoint contains (p s : pystr) : bool :=
  startswith p s ||
  match s with
  | [] => false
  | _ :: s' => contains p s'
  end.

(** [s.count(c)] for a one-character needle. *)
Definition count (c : N) (s : pystr) : nat := length (filter (λ x, x = c) s).

(** [s.splitlines()]: the lines of [s] without their line breaks; CR LF is
    one break; no empty last line after a final break. [cur] is the line
    being read. *)
Fixpoint splitlines_from (cur : pystr) (s : pystr) : list pystr :=
  match s with
  | [] => match cur with [] => [] | _ => [cur] end
  | c :: rest =>
      if islinebreak c then
        match rest with
        | c' :: rest' =>
            if (c =? 13) && (c' =? 10)
            then cur :: splitlines_from [] rest'
            else cur :: splitlines_from [] rest
        | [] => [cur]
        end
      else splitlines_from (cur ++ [c]) rest
  end.

Definition splitlines (s : pystr) : list pystr := splitlines_from [] s.

(** Comparison of [str] values ([<] on strings): lexicographic on code
    points, a proper prefix being smaller. *)
Fixpoint ltb (s t : pystr) : bool :=
  match s, t with
  | _, [] => false
  | [], _ :: _ => true
  | a :: s', b :: t' => (a <? b) || ((a =? b) && ltb s' t')
  end.

(** Lower-casing of one code point of the Basic Latin and Latin-1 blocks:
    A-Z, and À-Þ except the multiplication sign, move 32 up. *)
Definition latin1_lower (c : N) : N :=
  if ((65 <=? c) && (c <=? 90))
     || ((192 <=? c) && (c <=? 222) && negb (c =? 215))
  then c + 32 else c.

Definition is_latin1 (s : pystr) : bool := forallb (λ c, c <? 256) s.

End Str.

(** What the program takes from libraries whose tables and algorithms are not
    part of the repository: Unicode case mapping beyond Latin-1 (with its
    context-dependent rules) and RFC 3986 reference resolution. *)
Class PyRuntime := {
  (** [str.lower] on a string that has a code point above U+00FF. *)
  unicode_lower : pystr → pystr;
  (** [requests.compat.urljoin(base, ref)]. *)
  urljoin : pystr → pystr → pystr;
}.

Section Helpers.
Context `{PyRuntime}.

(** [s.lower()]: below U+0100 no code point has a multi-character or
    context-dependent lower case, so the mapping is pointwise there. *)
Definition lower (s : pystr) : pystr :=
  if Str.is_latin1 s then map Str.latin1_lower s else unicode_lower s.

(** [clean_text(s)] (lines 36-38); [None] is Python's [None]. *)
Definition clean_text (s : option pystr) : pystr :=
  match s with
  | None => []
  | Some s => Str.strip (Str.collapse_ws s)
  end.

End Helpers.

(** ** Data model *)

(** A product row: the dict with the four keys that every adapter builds. *)
Record Row := mkRow {
  category : pystr;
  brand : pystr;
  model : pystr;
  source_url : pystr;
}.

(** [r['category'] = c]. *)
Definition set_category (c : pystr) (r : Row) : Row :=
  {| category := c; brand := brand r; model := model r;
     source_url := source_url r |}.

(** The parsed document, as far as the program looks at it. *)
Record Element := mkElement {
  (** [el.get_text()] *)
  el_text : pystr;
  (** [el.find_parent('a', href=True)], reduced to its [href]. *)
  el_parent_href : option pystr;
}.

Record Anchor := mkAnchor {
  a_href : pystr;
  (** [a.get_text()] *)
  a_text : pystr;
}.

Record Page := mkPage {
  (** [s.select(sel)]: the elements matching a CSS selector, in document
      order. *)
  select : pystr → list Element;
  (** [s.select('a[href]')], which is also [soup.find_all('a', href=True)]. *)
  anchors : list Anchor;
}.

(** ** Deduplication *)

(** A dedup key: the tuple [(brand_key, model_key)]. *)
Abbreviation Key := (pystr * pystr)%type.

(** The loop written at lines 137-143, 195-201, 241-247, 303-309 and
    356-368: [seen] is the set of keys met so far and [unique] the rows kept
    so far. *)
Fixpoint dedupe_loop (key : Row → Key) (seen : gset Key) (unique : list Row)
    (rows : list Row) : list Row :=
  match rows with
  | [] => unique
  | r :: rest =>
      if decide (key r ∈ seen) then dedupe_loop key seen unique rest
      else dedupe_loop key ({[key r]} ∪ seen) (unique ++ [r]) rest
  end.

Definition dedupe_by (key : Row → Key) (rows : list Row) : list Row :=
  dedupe_loop key ∅ [] rows.

Section Pipeline.
Context `{PyRuntime}.

(** [key = (r['brand'].lower(), r['model'].lower())]. *)
Definition local_key (r : Row) : Key := (lower (brand r), lower (model r)).

(** The character class of [re.sub(r'[^a-z0-9\(\)\- ]', '', ...)], line
    359: [true] on the code points that are kept. *)
Definition global_keep (c : N) : bool :=
  ((97 <=? c) && (c <=? 122)) || ((48 <=? c) && (c <=? 57))
  || (c =? 40) || (c =? 41) || (c =? 45) || (c =? 32).

(** The key of line 359. *)
Definition global_key (r : Row) : Key :=
  (lower (Str.strip (brand r)),
   filter (λ c, global_keep c = true) (lower (Str.strip (model r)))).

(** The adapter-local passes. *)
Definition dedupe_local : list Row → list Row := dedupe_by local_key.

(** The pass of [run_all], lines 356-368.  The four assignments
    [r[k] = r.get(k, '')] write back what the row holds. *)
Definition dedupe_global : list Row → list Row := dedupe_by global_key.

(** ** Classification (lines 147-156) *)

(** [any(k in m for k in ks)]. *)
Definition any_in (ks : list pystr) (m : pystr) : bool :=
  existsb (λ k, Str.contains k m) ks.

Definition switch_keywords : list pystr :=
  [py "switch"; py "crs"; py "switch"; py "sfp"; py "sg"].

Definition ap_keywords : list pystr :=
  [py "hap"; py "wAP"; py "cap"; py "ap"; py "wireless"; py "nano";
   py "sxt"; py "lbe"].

Definition ptp_keywords : list pystr :=
  [py "ptp"; py "ptmp"; py "backhaul"; py "c5"; py "b5"].

(** The [if]/[elif] chain on [m = r['model'].lower()]. *)
Definition classify (model_name : pystr) : pystr :=
  let m := lower model_name in
  if any_in switch_keywords m then py "switch"
  else if any_in ap_keywords m then py "ap"
  else if any_in ptp_keywords m then py "ptp"
  else py "router".

Definition assign_categories (unique : list Row) : list Row :=
  map (λ r, set_category (classify (model r)) r) unique.

(** ** Page extraction *)

(** Truthiness of a [str]. *)
Definition truthy (s : pystr) : bool :=
  match s with [] => false | _ => true end.

(** [text.splitlines()[0]] under the guard [if text]: the list is then not
    empty (lemma [splitlines_nonempty]), so the index is in range. *)
Definition first_line (text : pystr) : pystr :=
  match Str.splitlines text with l :: _ => l | [] => [] end.

Definition mikrotik_base : pystr := py "https://mikrotik.com".

Definition sel_candidates : list pystr :=
  [py ".product-title"; py ".product-card__title"; py "h3"; py "h4";
   py ".title"; py ".product-name"].

(** Lines 112-122: the body of the selector loop for one element.  The
    state is [(rows, found)]. *)
Definition mikrotik_element (url : pystr) (st : list Row * list pystr)
    (el : Element) : list Row * list pystr :=
  let txt := clean_text (Some (el_text el)) in
  if truthy txt && (length txt <? 120)%nat then
    let source := match el_parent_href el with Some h => h | None => url end in
    let source :=
      if truthy source && Str.startswith (py "/") source
      then urljoin mikrotik_base source else source in
    (st.1 ++ [mkRow [] (py "MikroTik") txt source], st.2 ++ [txt])
  else st.

(** Lines 110-122. *)
Definition mikrotik_selectors (url : pystr) (s : Page)
    (st : list Row * list pystr) : list Row * list pystr :=
  fold_left (λ st sel, fold_left (mikrotik_element url) (select s sel) st)
            sel_candidates st.

(** Lines 126-130: the body of the card loop. *)
Definition mikrotik_card (url : pystr) (rows : list Row) (card : Element)
    : list Row :=
  let text := clean_text (Some (el_text card)) in
  let name := if truthy text then first_line text else [] in
  if truthy name && (length name <? 120)%nat
  then rows ++ [mkRow [] (py "MikroTik") name url]
  else rows.

(** Lines 102-130: what one fetched page adds to [rows].  [found] is
    filled by the selector loop and read nowhere. *)
Definition mikrotik_page (url : pystr) (s : Page) (rows : list Row)
    : list Row :=
  let '(rows, found) := mikrotik_selectors url s (rows, []) in
  fold_left (mikrotik_card url)
            (select s (py ".product, .product-card, .card, .catalog-item"))
            rows.

(** Lines 169-176 and 185-190, 217-223: anchors to [/products/...]. *)
Definition products_anchor (base brand_name : pystr) (rows : list Row)
    (a : Anchor) : list Row :=
  let href := a_href a in
  if Str.startswith (py "/products/") href && (2 <=? Str.count 47 href)%nat
  then
    let name := clean_text (Some (a_text a)) in
    if truthy name
    then rows ++ [mkRow (py "ptp") brand_name name (urljoin base href)]
    else rows
  else rows.

(** Lines 232-236: the body of the product-finder loop. *)
Definition cambium_finder_element (pf : pystr) (rows : list Row)
    (el : Element) : list Row :=
  let txt := clean_text (Some (el_text el)) in
  if truthy txt
  then rows ++ [mkRow (py "ptp") (py "Cambium") (first_line txt) pf]
  else rows.

(** Line 286. *)
Definition ubiquiti_selectors : list pystr :=
  [py ".product-card__title"; py ".product-title"; py "h2"; py "h3";
   py ".product-title a"; py ".card-title"].

Definition ubiquiti_element (url : pystr) (rows : list Row) (el : Element)
    : list Row :=
  let name := clean_text (Some (el_text el)) in
  if truthy name && (length name <? 200)%nat
  then rows ++ [mkRow (py "ap") (py "Ubiquiti") name url]
  else rows.

(** Lines 292-297. *)
Definition ubiquiti_anchor (url : pystr) (rows : list Row) (a : Anchor)
    : list Row :=
  let href := a_href a in
  if Str.contains (py "unifi") (lower href)
     || Str.contains (py "airmax") (lower href)
     || Str.contains (py "edge") (lower href)
     || Str.contains (py "/product") href
  then
    let name := clean_text (Some (a_text a)) in
    if truthy name
    then rows ++ [mkRow (py "ap") (py "Ubiquiti") name (urljoin url href)]
    else rows
  else rows.

(** Lines 286-290. *)
Definition ubiquiti_select (url : pystr) (s : Page) (rows : list Row)
    : list Row :=
  fold_left (λ rows sel, fold_left (ubiquiti_element url) (select s sel) rows)
            ubiquiti_selectors rows.

(** Lines 284-297. *)
Definition ubiquiti_page (url : pystr) (s : Page) (rows : list Row)
    : list Row :=
  let rows := ubiquiti_select url s rows in
  fold_left (ubiquiti_anchor url) (anchors s) rows.

End Pipeline.

(** ** CSV export (lines 40-49) *)

Module Csv.

(** The characters that make [csv.writer] quote a field under the default
    dialect (QUOTE_MINIMAL): delimiter, quote character, CR and LF. *)
Definition special (c : N) : bool :=
  (c =? 44) || (c =? 34) || (c =? 13) || (c =? 10).

(** Doubling of the quote character inside a quoted field. *)
Definition escape (field : pystr) : pystr :=
  flat_map (λ c, if c =? 34 then [34; 34] else [c]) field.

Definition write_field (field : pystr) : pystr :=
  if existsb special field then [34] ++ escape field ++ [34] else field.

(** Fields joined by the delimiter. *)
Fixpoint join_fields (fields : list pystr) : pystr :=
  match fields with
  | [] => []
  | [f] => write_field f
  | f :: rest => write_field f ++ [44] ++ join_fields rest
  end.

(** [writer.writerow(fields)] for a record of two or more fields: the
    fields, then the line terminator CR LF. *)
Definition writerow (fields : list pystr) : pystr :=
  join_fields fields ++ [13; 10].

(** *** Reading back: [csv.reader] over a file opened with [newline='']

    The text layer hands the reader one line at a time, terminators
    (LF, CR, CR LF) kept; the reader feeds the characters of the line and
    then an end-of-line mark to its state machine (CPython 3.11 and later,
    where the mark is not a character of the text). *)

Fixpoint readlines_from (cur : pystr) (s : pystr) : list pystr :=
  match s with
  | [] => match cur with [] => [] | _ => [cur] end
  | c :: rest =>
      if c =? 10 then (cur ++ [c]) :: readlines_from [] rest
      else if c =? 13 then
        match rest with
        | c' :: rest' =>
            if c' =? 10 then (cur ++ [c; c']) :: readlines_from [] rest'
            else (cur ++ [c]) :: readlines_from [] rest
        | [] => [cur ++ [c]]
        end
      else readlines_from (cur ++ [c]) rest
  end.

Definition readlines (s : pystr) : list pystr := readlines_from [] s.

Inductive ParserState :=
  | START_RECORD | START_FIELD | IN_FIELD | IN_QUOTED_FIELD
  | QUOTE_IN_QUOTED_FIELD | EAT_CRNL.

Record Reader := mkReader {
  state : ParserState;
  (** the field being read *)
  field : pystr;
  (** the fields of the record being read *)
  fields : list pystr;
}.

Definition parse_reset : Reader := mkReader START_RECORD [] [].

Definition set_state (st : ParserState) (rd : Reader) : Reader :=
  mkReader st (field rd) (fields rd).

Definition parse_save_field (rd : Reader) : Reader :=
  mkReader (state rd) [] (fields rd ++ [field rd]).

Definition parse_add_char (c : N) (rd : Reader) : Reader :=
  mkReader (state rd) (field rd ++ [c]) (fields rd).

Definition is_newline (c : N) : bool := (c =? 10) || (c =? 13).

Definition start_field (rd : Reader) (c : option N) : option Reader :=
  match c with
  | None => Some (set_state START_RECORD (parse_save_field rd))
  | Some ch =>
      if is_newline ch then Some (set_state EAT_CRNL (parse_save_field rd))
      else if ch =? 34 then Some (set_state IN_QUOTED_FIELD rd)
      else if ch =? 44 then Some (set_state START_FIELD (parse_save_field rd))
      else Some (set_state IN_FIELD (parse_add_char ch rd))
  end.

(** [parse_process_char] for the default dialect (delimiter comma, quote
    character double quote, doubled quotes, no escape character, not
    strict).  [None] as input is the end-of-line mark, [None] as result
    is [csv.Error]. *)
Definition process_char (rd : Reader) (c : option N) : option Reader :=
  match state rd with
  | START_RECORD =>
      match c with
      | None => Some rd
      | Some ch =>
          if is_newline ch then Some (set_state EAT_CRNL rd)
          else start_field rd c
      end
  | START_FIELD => start_field rd c
  | IN_FIELD =>
      match c with
      | None => Some (set_state START_RECORD (parse_save_field rd))
      | Some ch =>
          if is_newline ch
          then Some (set_state EAT_CRNL (parse_save_field rd))
          else if ch =? 44
          then Some (set_state START_FIELD (parse_save_field rd))
          else Some (parse_add_char ch rd)
      end
  | IN_QUOTED_FIELD =>
      match c with
      | None => Some rd
      | Some ch =>
          if ch =? 34 then Some (set_state QUOTE_IN_QUOTED_FIELD rd)
          else Some (parse_add_char ch rd)
      end
  | QUOTE_IN_QUOTED_FIELD =>
      match c with
      | None => Some (set_state START_RECORD (parse_save_field rd))
      | Some ch =>
          if ch =? 34
          then Some (set_state IN_QUOTED_FIELD (parse_add_char ch rd))
          else if ch =? 44
          then Some (set_state START_FIELD (parse_save_field rd))
          else if is_newline ch
          then Some (set_state EAT_CRNL (parse_save_field rd))
          else Some (set_state IN_FIELD (parse_add_char ch rd))
      end
  | EAT_CRNL =>
      match c with
      | None => Some (set_state START_RECORD rd)
      | Some ch => if is_newline ch then Some rd else None
      end
  end.

(** The characters of one line. *)
Fixpoint feed (rd : Reader) (line : pystr) : option Reader :=
  match line with
  | [] => Some rd
  | c :: rest =>
      match process_char rd (Some c) with
      | Some rd' => feed rd' rest
      | None => None
      end
  end.

Definition is_start_record (st : ParserState) : bool :=
  match st with START_RECORD => true | _ => false end.

Definition is_in_quoted (st : ParserState) : bool :=
  match st with IN_QUOTED_FIELD => true | _ => false end.

(** The records read from the lines that are left; [rd] carries a record
    that spans several lines.  A record is complete when the end-of-line
    mark leaves the machine in [START_RECORD]; at the end of the input a
    pending quoted or non-empty field closes the last record. *)
Fixpoint read_lines (lines : list pystr) (rd : Reader)
    (out : list (list pystr)) : option (list (list pystr)) :=
  match lines with
  | [] =>
      if is_in_quoted (state rd) || match field rd with [] => false | _ => true end
      then Some (out ++ [fields (parse_save_field rd)])
      else Some out
  | line :: rest =>
      match feed rd line with
      | None => None
      | Some rd1 =>
          match process_char rd1 None with
          | None => None
          | Some rd2 =>
              if is_start_record (state rd2)
              then read_lines rest parse_reset (out ++ [fields rd2])
              else read_lines rest rd2 out
          end
      end
  end.

(** [list(csv.reader(f))]: [None] when the reader raises. *)
Definition reader (text : pystr) : option (list (list pystr)) :=
  read_lines (readlines text) parse_reset [].

End Csv.

Definition keys : list pystr :=
  [py "category"; py "brand"; py "model"; py "source_url"].

(** [{k: r.get(k, '') for k in keys}] in the order of [keys]. *)
Definition row_fields (r : Row) : list pystr :=
  [category r; brand r; model r; source_url r].

(** What [save_to_csv] writes to the file: the header, then one record for
    each row. *)
Definition csv_text (rows : list Row) : pystr :=
  Csv.writerow keys ++ concat (map (λ r, Csv.writerow (row_fields r)) rows).

(** ** Effects *)

(** The adapters, as the log lines name them. *)
Inductive Adapter := MikroTik | Ubiquiti | Cambium | Mimosa.

(** The lines the program prints, by their format string. *)
Inductive Message :=
  | MsgFetching (a : Adapter)
  | MsgFoundPages (n : nat)
  | MsgSkip (a : Adapter) (url : pystr)
  | MsgCollected (a : Adapter) (n : nat)
  | MsgFailed (a : Adapter)
  | MsgSaved (n : nat) (path : pystr)
  | MsgSavedBrand (path : pystr)
  | MsgDone (n : nat)
  | MsgSeleniumUnavailable.

Inductive Event :=
  (** [requests.get(url, ...)] *)
  | HttpGet (url : pystr)
  (** [webdriver.Chrome(options=...)], [driver.get(url)], [driver.quit()] *)
  | DriverStart
  | DriverGet (url : pystr)
  | DriverQuit
  | Print (m : Message)
  (** The main CSV: path and text written. *)
  | WriteFile (path : pystr) (text : pystr)
  (** [g.to_csv(subpath, ...)]: path and the rows of the group. *)
  | WriteBrandCsv (path : pystr) (rows : list Row).

(** What the outside world answers during one run. *)
Record World := mkWorld {
  (** [requests.get] followed by [raise_for_status] and the parse; [None]
      when an exception is raised (timeout, connection, HTTP status). *)
  http_get : pystr → option Page;
  (** The module-level flag set by the import of selenium. *)
  SELENIUM_OK : bool;
  (** Whether [webdriver.Chrome(...)] returns a driver. *)
  chrome_starts : bool;
  (** [driver.get(url)] then the parse of [driver.page_source]. *)
  driver_get : pystr → option Page;
  (** [datetime.utcnow().strftime('%Y%m%d_%H%M%S')]. *)
  utcnow : pystr;
}.

(** A computation: the events it produced, and its value, or [None] when it
    raised an exception. *)
Definition M (A : Type) : Type := list Event * option A.

Definition ret {A} (a : A) : M A := ([], Some a).

Definition raise {A} : M A := ([], None).

Definition bind {A B} (m : M A) (k : A → M B) : M B :=
  match m with
  | (ev, Some a) => let '(ev', b) := k a in (ev ++ ev', b)
  | (ev, None) => (ev, None)
  end.

(** [try: m  except Exception: handler]. *)
Definition try_except {A} (m : M A) (handler : M A) : M A :=
  match m with
  | (ev, Some a) => (ev, Some a)
  | (ev, None) => let '(ev', b) := handler in (ev ++ ev', b)
  end.

Definition emit (e : Event) : M unit := ([e], Some tt).

Definition print (m : Message) : M unit := emit (Print m).

#[global] Instance M_ret : MRet M := @ret.
#[global] Instance M_bind : MBind M := λ A B k m, bind m k.

(** A [for] loop that threads the state [st] through a body with effects. *)
Fixpoint for_each {A S} (xs : list A) (st : S) (body : S → A → M S) : M S :=
  match xs with
  | [] => ret st
  | x :: rest => st' ← body st x; for_each rest st' body
  end.

(** [sorted(links)] for a set of strings. *)
Definition str_le (s t : pystr) : Prop := Str.ltb t s = false.

#[global] Instance str_le_dec : RelDecision str_le :=
  λ s t, decide (Str.ltb t s = false).

Definition sorted (links : gset pystr) : list pystr :=
  merge_sort str_le (elements links).

Section Adapters.
Context `{PyRuntime} (w : World).

(** A plain fetch: [requests.get(url, ...)], [raise_for_status()], parse. *)
Definition get (url : pystr) : M Page :=
  emit (HttpGet url);;
  match http_get w url with Some page => ret page | None => raise end.

(** [maybe_selenium_get(url, driver)] with a driver, then the parse. *)
Definition selenium_get (url : pystr) : M Page :=
  emit (DriverGet url);;
  match driver_get w url with Some page => ret page | None => raise end.

(** *** MikroTik (lines 62-157) *)

Definition group_pages : list pystr :=
  [py "https://mikrotik.com/products/group/ethernet-routers";
   py "https://mikrotik.com/products/group/switches";
   py "https://mikrotik.com/products/group/wireless-systems";
   py "https://mikrotik.com/products/group/lte-5g";
   py "https://mikrotik.com/products/group/60-ghz-products";
   py "https://mikrotik.com/products/group/routerboard"].

(** Lines 77-95. *)
Definition mikrotik_links (soup : Page) : gset pystr :=
  let links :=
    fold_left
      (λ (links : gset pystr) a,
         let href := a_href a in
         if Str.startswith (py "/product") href
            || Str.startswith (py "/products/group") href
            || Str.startswith (py "/products/") href
         then {[urljoin mikrotik_base href]} ∪ links else links)
      (anchors soup) ∅ in
  fold_left (λ (links : gset pystr) gp, {[gp]} ∪ links) group_pages links.

(** Lines 98-134: the crawl of the candidate pages. *)
Definition mikrotik_crawl (urls : list pystr) : M (list Row) :=
  for_each urls [] (λ rows url,
    try_except
      (s ← get url; ret (mikrotik_page url s rows))
      (print (MsgSkip MikroTik url);; ret rows)).

Definition fetch_mikrotik : M (list Row) :=
  print (MsgFetching MikroTik);;
  soup ← get (mikrotik_base ++ py "/products");
  let links := mikrotik_links soup in
  print (MsgFoundPages (size links));;
  rows ← mikrotik_crawl (sorted links);
  let unique := dedupe_local rows in
  print (MsgCollected MikroTik (length unique));;
  ret (assign_categories unique).

(** *** Mimosa (lines 160-203) *)

Definition mimosa_base : pystr := py "https://mimosa.co".

Definition mimosa_categories : list pystr :=
  [py "accessories"; py "antennas"; py "backhaul"; py "access-points";
   py "clients"].

Definition fetch_mimosa : M (list Row) :=
  print (MsgFetching Mimosa);;
  s ← get (mimosa_base ++ py "/products");
  let rows := fold_left (products_anchor mimosa_base (py "Mimosa"))
                        (anchors s) [] in
  rows ← for_each mimosa_categories rows (λ rows cat,
    try_except
      (ss ← get (mimosa_base ++ py "/products/" ++ cat);
       ret (fold_left (products_anchor mimosa_base (py "Mimosa"))
                      (anchors ss) rows))
      (ret rows));
  let unique := dedupe_local rows in
  print (MsgCollected Mimosa (length unique));;
  ret unique.

(** *** Cambium (lines 206-249) *)

Definition cambium_base : pystr := py "https://www.cambiumnetworks.com".

Definition fetch_cambium : M (list Row) :=
  print (MsgFetching Cambium);;
  s ← get (cambium_base ++ py "/products/");
  let rows := fold_left (products_anchor cambium_base (py "Cambium"))
                        (anchors s) [] in
  let pf := cambium_base ++ py "/product-finder/" in
  rows ← try_except
    (s2 ← get pf;
     ret (fold_left (cambium_finder_element pf)
            (select s2 (py ".product-listing, .pf-result, .product-card, .product"))
            rows))
    (ret rows);
  let unique := dedupe_local rows in
  print (MsgCollected Cambium (length unique));;
  ret unique.

(** *** Ubiquiti (lines 252-311) *)

Definition ubiquiti_urls : list pystr :=
  [py "https://www.ui.com/unifi/"; py "https://www.ui.com/edge/";
   py "https://store.ui.com/collections/all";
   py "https://store.ui.com/collections/unifi"]
  ++ [py "https://store.ui.com/collections/ubiquiti";
      py "https://www.ui.com/collections/unifi"].

(** [driver] tells whether a driver object was passed. *)
Definition fetch_ubiquiti (use_selenium driver : bool) : M (list Row) :=
  st ← for_each ubiquiti_urls (([] : list Row), (∅ : gset pystr))
    (λ st url,
       let '(rows, tried) := st in
       if decide (url ∈ tried) then ret (rows, tried)
       else
         let tried := {[url]} ∪ tried in
         try_except
           (s ← (if use_selenium && driver then selenium_get url else get url);
            ret (ubiquiti_page url s rows, tried))
           (print (MsgSkip Ubiquiti url);; ret (rows, tried)));
  let unique := dedupe_local st.1 in
  print (MsgCollected Ubiquiti (length unique));;
  ret unique.

End Adapters.

Section Runner.
Context `{PyRuntime} (w : World).

Definition OUTPUT_DIR : pystr := py "output_products".

(** [save_to_csv(rows, filename)], lines 40-49. *)
Definition save_to_csv (rows : list Row) (filename : pystr) : M pystr :=
  let path := OUTPUT_DIR ++ py "/" ++ filename in
  emit (WriteFile path (csv_text rows));;
  print (MsgSaved (length rows) path);;
  ret path.

Definition is_ascii_alnum (c : N) : bool :=
  ((65 <=? c) && (c <=? 90)) || ((97 <=? c) && (c <=? 122))
  || ((48 <=? c) && (c <=? 57)).

(** [re.sub(r'[^A-Za-z0-9]+', '_', brand).strip('_').lower()], line 377. *)
Definition brand_file_stem (b : pystr) : pystr :=
  lower (Str.strip_by (λ c, c =? 95)
           (Str.sub_runs (λ c, negb (is_ascii_alnum c)) 95 b)).

(** [pd.DataFrame(unique).groupby('brand')], line 375-376: a frame built
    from no row has no column, and grouping it by ['brand'] raises
    [KeyError]; otherwise the groups come in increasing order of the
    brand, each with its rows in their order. *)
Definition groupby_brand (unique : list Row) : M (list (pystr * list Row)) :=
  match unique with
  | [] => raise
  | _ =>
      ret (map (λ b, (b, filter (λ r, brand r = b) unique))
               (sorted (list_to_set (map brand unique))))
  end.

(** Lines 326-336, the body of the second [try] up to [ub]: with the flag
    and the module present a headless Chrome is started, passed to the
    adapter and quit; a driver object is truthy. *)
Definition run_ubiquiti (use_selenium : bool) : M (list Row) :=
  if use_selenium && SELENIUM_OK w then
    emit DriverStart;;
    (if chrome_starts w then ret tt else raise);;
    ub ← fetch_ubiquiti w true true;
    emit DriverQuit;;
    ret ub
  else fetch_ubiquiti w false false.

(** Lines 315-353: the four adapters, each in its own [try]. *)
Definition gather (use_selenium : bool) : M (list Row) :=
  let rows_all : list Row := [] in
  rows_all ← try_except
    (mk ← fetch_mikrotik w; ret (rows_all ++ mk))
    (print (MsgFailed MikroTik);; ret rows_all);
  rows_all ← try_except
    (ub ← run_ubiquiti use_selenium; ret (rows_all ++ ub))
    (print (MsgFailed Ubiquiti);; ret rows_all);
  rows_all ← try_except
    (cb ← fetch_cambium w; ret (rows_all ++ cb))
    (print (MsgFailed Cambium);; ret rows_all);
  try_except
    (mm ← fetch_mimosa w; ret (rows_all ++ mm))
    (print (MsgFailed Mimosa);; ret rows_all).

(** [run_all(use_selenium)], lines 314-383. *)
Definition run_all (use_selenium : bool) : M pystr :=
  rows_all ← gather use_selenium;
  let unique := dedupe_global rows_all in
  let ts := utcnow w in
  let filename := py "all_products_" ++ ts ++ py ".csv" in
  path ← save_to_csv unique filename;
  groups ← groupby_brand unique;
  for_each groups tt (λ _ bg,
    let bn := brand_file_stem bg.1 in
    let subpath := OUTPUT_DIR ++ py "/" ++ bn ++ py "_" ++ ts ++ py ".csv" in
    emit (WriteBrandCsv subpath bg.2);;
    print (MsgSavedBrand subpath));;
  print (MsgDone (length unique));;
  ret path.

(** The script body, lines 385-392: the events and the exit status of the
    process.  An exception that leaves [run_all] ends the process with
    status 1. *)
Definition main (use_selenium : bool) : list Event * N :=
  if use_selenium && negb (SELENIUM_OK w)
  then ([Print MsgSeleniumUnavailable], 1)
  else
    match run_all use_selenium with
    | (ev, Some _) => (ev, 0)
    | (ev, None) => (ev, 1)
    end.

End Runner.

(** * Statements

    The definitions below belong to the statements of the properties, not to
    the program. *)

(** The statement of "the first row of each class of the key survives": the
    rows of [rows], in their order, whose key no earlier row of [rows] has.
    [imap pair rows] pairs every row with its position. *)
Definition is_first (key : Row → Key) (rows : list Row) (ir : nat * Row)
    : Prop :=
  Forall (λ r', key r' ≠ key ir.2) (take ir.1 rows).

#[global] Instance is_first_dec key rows ir : Decision (is_first key rows ir).
Proof. unfold is_first. apply _. Defined.

Definition first_of_each_class (key : Row → Key) (rows : list Row) : list Row :=
  (filter (is_first key rows) (imap pair rows)).*2.

(** Modelled on the words of the specification, not on line 359: "model
    with every character that is not alphanumeric, a space, a hyphen, or a
    parenthesis stripped, then lowercased", and the lowercased brand. *)
Definition spec_keep_char (c : N) : bool :=
  is_ascii_alnum c || (c =? 32) || (c =? 45) || (c =? 40) || (c =? 41).

Definition spec_global_key `{PyRuntime} (r : Row) : Key :=
  (lower (brand r), lower (filter (λ c, spec_keep_char c = true) (model r))).

(** The rows of the data model: [brand] and [model] carry no leading or
    trailing whitespace (the adapters build [model] with [clean_text] and
    [brand] from a literal), and the model is written in Latin-1, where
    lower-casing is pointwise. *)
Definition normalized_row (r : Row) : Prop :=
  Str.strip (brand r) = brand r ∧ Str.strip (model r) = model r
  ∧ Str.is_latin1 (model r) = true.

#[global] Instance normalized_row_dec r : Decision (normalized_row r).
Proof. unfold normalized_row. apply _. Defined.

(** A runtime to run the model on examples: no case mapping above Latin-1
    is needed there, and a reference that is an absolute path is appended to
    a base that has no path. *)
Definition example_runtime : PyRuntime :=
  {| unicode_lower := map Str.latin1_lower;
     urljoin := λ base ref, base ++ ref |}.

Definition hAP_ac2 : pystr := py "hAP ac" ++ [178].

(** Rows that differ in case and in a stripped character only. *)
Definition example_rows : list Row :=
  [mkRow (py "switch") (py "MikroTik") (py "CRS326 (24G)") (py "u1");
   mkRow (py "ap") (py "Ubiquiti") (py "U6 Lite") (py "u2");
   mkRow (py "router") (py "mikrotik") (py "crs326 (24g)!") (py "u3")].

(** The page of the scenario: two candidates, both under [h3], each inside
    an anchor. *)
Definition crs_page : Page :=
  mkPage (λ sel, if decide (sel = py "h3")
                 then [mkElement (py "CRS326") (Some (py "/product/crs326"));
                       mkElement (py "crs326") (Some (py "/product/crs326-dup"))]
                 else [])
         [].


(** The rule of the code: the length is below the bound. *)
Definition candidate_kept (bound : nat) (txt : pystr) : bool :=
  truthy txt && (length txt <? bound)%nat.



(** A page where a selector matches and a card spans two lines. *)
Definition card_text : pystr := py "CRS326" ++ [10] ++ py "Cloud Router Switch".

Definition card_page : Page :=
  mkPage (λ sel,
            if decide (sel = py "h3") then [mkElement (py "CRS326") None]
            else if decide (sel = py ".product, .product-card, .card, .catalog-item")
            then [mkElement card_text None]
            else [])
         [].

Section CandidateStatements.
Context `{PyRuntime}.

(** What one matched element contributes in the MikroTik selector loop. *)
Definition mikrotik_candidate (url : pystr) (el : Element) : list Row :=
  let txt := clean_text (Some (el_text el)) in
  if candidate_kept 120 txt then
    let source := match el_parent_href el with Some h => h | None => url end in
    [mkRow [] (py "MikroTik") txt
       (if truthy source && Str.startswith (py "/") source
        then urljoin mikrotik_base source else source)]
  else [].

(** The same for the Ubiquiti selector loop. *)
Definition ubiquiti_candidate (url : pystr) (el : Element) : list Row :=
  let name := clean_text (Some (el_text el)) in
  if candidate_kept 200 name
  then [mkRow (py "ap") (py "Ubiquiti") name url] else [].


End CandidateStatements.

(** What an adapter run [m] adds to [rows_all], and what its [try] block
    logs: the events of the adapter, then the failure line if it raised. *)
Definition contribution (m : M (list Row)) : list Row := default [] m.2.

Definition adapter_log (a : Adapter) (m : M (list Row)) : list Event :=
  m.1 ++ match m.2 with Some _ => [] | None => [Print (MsgFailed a)] end.

(** What the crawl of one candidate page adds when the page answers. *)
Definition mikrotik_page_rows `{PyRuntime} (w : World) (url : pystr)
    : list Row :=
  match http_get w url with
  | Some s => mikrotik_page url s []
  | None => []
  end.

(** A world where the MikroTik start page lists one product page, that page
    answers, and nothing else does. *)
Definition one_product_world : World :=
  mkWorld
    (λ url,
       if decide (url = py "https://mikrotik.com/products")
       then Some (mkPage (λ _, []) [mkAnchor (py "/product/crs326") (py "CRS326")])
       else if decide (url = py "https://mikrotik.com/product/crs326")
       then Some crs_page
       else None)
    false false (λ _, None) (py "20240101_000000").

(** A world where no request is answered. *)
Definition offline_world : World :=
  mkWorld (λ _, None) false false (λ _, None) (py "20240101_000000").

(** The category labels, and the rows each adapter may return. *)
Definition four_labels : list pystr :=
  [py "router"; py "switch"; py "ap"; py "ptp"].

Definition labelled (r : Row) : Prop :=
  category r ∈ four_labels ∧ category r ≠ [].

Definition adapter_row (a : Adapter) (r : Row) : Prop :=
  match a with
  | MikroTik => brand r = py "MikroTik" ∧ category r ∈ four_labels
  | Ubiquiti => brand r = py "Ubiquiti" ∧ category r = py "ap"
  | Cambium => brand r = py "Cambium" ∧ category r = py "ptp"
  | Mimosa => brand r = py "Mimosa" ∧ category r = py "ptp"
  end.

(** A postcondition on the value of a computation that returns. *)
Definition post {A} (P : A → Prop) (m : M A) : Prop :=
  ∀ a, m.2 = Some a → P a.

(** Reading on from the middle of a line: [rd0] is the state of the reader
    at the start of the line and [cur] the part of the line read so far. *)
Definition resume (rd0 : Csv.Reader) (cur s : pystr)
    (out : list (list pystr)) : option (list (list pystr)) :=
  Csv.read_lines (Csv.readlines_from cur s) rd0 out.

(** The end of [line]: the reader is fed the line and the end-of-line
    mark, and goes on with the text [s]. *)
Definition end_line (rd0 : Csv.Reader) (line s : pystr)
    (out : list (list pystr)) : option (list (list pystr)) :=
  match Csv.feed rd0 line with
  | None => None
  | Some rd1 =>
      match Csv.process_char rd1 None with
      | None => None
      | Some rd2 =>
          if Csv.is_start_record (Csv.state rd2)
          then resume Csv.parse_reset [] s (out ++ [Csv.fields rd2])
          else resume rd2 [] s out
      end
  end.

(** Reading the export back into rows: the header must be the four column
    names, every record must have four fields. *)
Definition row_of_fields (flds : list pystr) : option Row :=
  match flds with
  | [c; b; m; u] => Some (mkRow c b m u)
  | _ => None
  end.

Definition parse_csv (text : pystr) : option (list Row) :=
  match Csv.reader text with
  | Some (header :: data) =>
      if decide (header = keys) then mapM row_of_fields data else None
  | _ => None
  end.

(** The states in which the reader has just read the text of a field [f],
    having started the field in state [rd]. *)
Definition field_read (rd rd' : Csv.Reader) (f : pystr) : Prop :=
  Csv.field rd' = f ∧ Csv.fields rd' = Csv.fields rd
  ∧ (Csv.state rd' = Csv.IN_FIELD ∨ Csv.state rd' = Csv.QUOTE_IN_QUOTED_FIELD
     ∨ (f = [] ∧ Csv.state rd' = Csv.state rd)).

(** The first two conditions of [normalized_row], and the rows an adapter
    builds: its brand, its categories, and a trimmed model. *)
Definition trimmed_row (r : Row) : Prop :=
  Str.strip (brand r) = brand r ∧ Str.strip (model r) = model r.

Definition built_row (a : Adapter) (r : Row) : Prop :=
  adapter_row a r ∧ trimmed_row r.

(** The texts that [re.sub(r'\s+', ' ', ...)] leaves unchanged: every
    whitespace character is a SPACE that does not follow a whitespace
    character ([b]: the text follows one). *)
Fixpoint single_spaced (b : bool) (t : pystr) : Prop :=
  match t with
  | [] => True
  | c :: t' =>
      if Str.isspace c then b = false ∧ c = 32 ∧ single_spaced true t'
      else single_spaced false t'
  end.

(** A computation that returns a value (raises no exception). *)
Definition returns {A} (m : M A) : Prop := is_Some m.2.

(** Every event of a computation satisfies [P]. *)
Definition trace (P : Event → Prop) {A} (m : M A) : Prop := Forall P m.1.

(** Requests to the outside (HTTP or browser), writes to files, and the
    events of the browser driver. *)
Definition is_request (e : Event) : Prop :=
  match e with
  | HttpGet _ | DriverStart | DriverGet _ | DriverQuit => True
  | _ => False
  end.

Definition is_write (e : Event) : Prop :=
  match e with WriteFile _ _ | WriteBrandCsv _ _ => True | _ => False end.

Definition is_driver (e : Event) : Prop :=
  match e with DriverStart | DriverGet _ | DriverQuit => True | _ => False end.

(** The pages a trace asks for, in order: [true] marks a page asked
    through the browser driver. *)
Definition page_requests (ev : list Event) : list (bool * pystr) :=
  omap (λ e, match e with
             | HttpGet url => Some (false, url)
             | DriverGet url => Some (true, url)
             | _ => None
             end) ev.

(** A row with a model name: not empty, and for MikroTik shorter than 120
    characters. *)
Definition named_row (a : Adapter) (r : Row) : Prop :=
  model r ≠ [] ∧ (a = MikroTik → (length (model r) < 120)%nat).

(** The classifier with the keywords that can decide: [switch] listed once,
    and, of the access-point keywords, those that are not subsumed by [ap]
    or written with capitals. *)
Definition classify_effective `{PyRuntime} (model_name : pystr) : pystr :=
  let m := lower model_name in
  if any_in [py "switch"; py "crs"; py "sfp"; py "sg"] m then py "switch"
  else if any_in [py "ap"; py "wireless"; py "nano"; py "sxt"; py "lbe"] m
  then py "ap"
  else if any_in [py "ptp"; py "ptmp"; py "backhaul"; py "c5"; py "b5"] m
  then py "ptp"
  else py "router".

(** The characters of a file stem: lowercase ASCII letters, digits and the
    underscore. *)
Definition stem_char (c : N) : Prop :=
  97 ≤ c ≤ 122 ∨ 48 ≤ c ≤ 57 ∨ c = 95.

(** The rows of the per-brand CSVs of a trace, one list for each file, in
    the order of the writes. *)
Definition brand_csvs (ev : list Event) : list (list Row) :=
  omap (λ e, match e with WriteBrandCsv _ rows => Some rows | _ => None end) ev.

(** Two rows that a join by commas without quoting would write alike. *)
Definition comma_rows_1 : list Row := [mkRow (py "a,b") (py "c") [] []].
Definition comma_rows_2 : list Row := [mkRow (py "a") (py "b,c") [] []].

(** * Properties *)

(** ** Deduplication, for any key *)

Section Dedupe.
Variable key : Row → Key.

Lemma dedupe_loop_acc seen unique rows :
  dedupe_loop key seen unique rows = unique ++ dedupe_loop key seen [] rows.
Proof.
  revert seen unique. induction rows as [|r rows IH]; intros seen unique; simpl.
  - by rewrite app_nil_r.
  - destruct (decide (key r ∈ seen)); [apply IH|].
    rewrite (IH _ (unique ++ [r])), (IH _ ([] ++ [r])). by rewrite <-app_assoc.
Qed.

Lemma dedupe_loop_cons_new seen r rows :
  key r ∉ seen →
  dedupe_loop key seen [] (r :: rows)
  = r :: dedupe_loop key ({[key r]} ∪ seen) [] rows.
Proof.
  intros Hnew. simpl. rewrite decide_False by done.
  by rewrite dedupe_loop_acc.
Qed.

Lemma dedupe_loop_cons_seen seen unique r rows :
  key r ∈ seen →
  dedupe_loop key seen unique (r :: rows) = dedupe_loop key seen unique rows.
Proof. intros Hin. simpl. by rewrite decide_True. Qed.

(** The loop against the positional statement: [pre] is the part of the
    input already read, [seen] holds exactly its keys. *)
Lemma dedupe_loop_first (pre : list Row) seen rows :
  (∀ k, k ∈ seen ↔ k ∈ key <$> pre) →
  dedupe_loop key seen [] rows
  = (filter (is_first key (pre ++ rows))
            (imap (λ i r, (length pre + i, r)%nat) rows)).*2.
Proof.
  revert pre seen. induction rows as [|r rows IH]; intros pre seen Hseen.
  - done.
  - assert (Hfirst : is_first key (pre ++ r :: rows) (length pre + 0, r)%nat
                     ↔ key r ∉ seen).
    { unfold is_first; simpl. rewrite Nat.add_0_r, take_app_length.
      rewrite Hseen, Forall_forall, list_elem_of_fmap. split.
      - intros Hall (r' & Heq & Hin). by apply (Hall r').
      - intros Hno r' Hin Heq. apply Hno. eauto. }
    assert (Hshift : imap ((λ i r0, (length pre + i, r0)%nat) ∘ S) rows
                    = imap (λ i r0, (length (pre ++ [r]) + i, r0)%nat) rows).
    { apply imap_ext. intros i x _. simpl. rewrite length_app. simpl.
      f_equal. lia. }
    rewrite imap_cons, filter_cons, Hshift.
    replace (pre ++ r :: rows) with ((pre ++ [r]) ++ rows) in *
      by by rewrite <-app_assoc.
    destruct (decide (key r ∈ seen)) as [Hin|Hnew].
    + rewrite dedupe_loop_cons_seen by done.
      rewrite decide_False by (rewrite Hfirst; tauto).
      apply IH. intros k. rewrite fmap_app, elem_of_app, <-Hseen. simpl.
      rewrite list_elem_of_singleton. naive_solver.
    + rewrite dedupe_loop_cons_new by done.
      rewrite decide_True by (by rewrite Hfirst).
      simpl. f_equal. apply IH.
      intros k. rewrite fmap_app, elem_of_app, <-Hseen. simpl.
      rewrite list_elem_of_singleton. set_solver.
Qed.

Theorem dedupe_by_first_of_each_class rows :
  dedupe_by key rows = first_of_each_class key rows.
Proof.
  unfold dedupe_by, first_of_each_class.
  rewrite (dedupe_loop_first [] ∅ rows) by set_solver. done.
Qed.

(** The keys of what one pass keeps are distinct and new to [seen]. *)
Lemma dedupe_loop_keys seen rows :
  NoDup (key <$> dedupe_loop key seen [] rows)
  ∧ ∀ r, r ∈ dedupe_loop key seen [] rows → key r ∉ seen.
Proof.
  revert seen. induction rows as [|r rows IH]; intros seen.
  - split; [constructor | set_solver].
  - destruct (decide (key r ∈ seen)) as [Hin|Hnew].
    + rewrite dedupe_loop_cons_seen by done. apply IH.
    + rewrite dedupe_loop_cons_new by done.
      destruct (IH ({[key r]} ∪ seen)) as [Hnd Hout]. split.
      * rewrite fmap_cons. constructor; [|done].
        rewrite list_elem_of_fmap. intros (r' & Heq & Hin').
        apply Hout in Hin'. set_solver.
      * intros r' [->|Hin']%elem_of_cons; [done|].
        apply Hout in Hin'. set_solver.
Qed.

(** A pass over rows with distinct keys, all new to [seen], keeps all. *)
Lemma dedupe_loop_distinct seen rows :
  NoDup (key <$> rows) → (∀ r, r ∈ rows → key r ∉ seen) →
  dedupe_loop key seen [] rows = rows.
Proof.
  revert seen. induction rows as [|r rows IH]; intros seen Hnd Hnew; [done|].
  rewrite fmap_cons in Hnd. apply NoDup_cons in Hnd as [Hr Hnd].
  rewrite dedupe_loop_cons_new by (apply Hnew; left).
  f_equal. apply IH; [done|].
  intros r' Hin. apply not_elem_of_union. split; [|apply Hnew; by right].
  rewrite elem_of_singleton. intros Heq. apply Hr.
  rewrite list_elem_of_fmap. eauto.
Qed.

Lemma dedupe_by_idempotent rows :
  dedupe_by key (dedupe_by key rows) = dedupe_by key rows.
Proof.
  unfold dedupe_by. destruct (dedupe_loop_keys ∅ rows) as [Hnd _].
  apply dedupe_loop_distinct; [done | set_solver].
Qed.

(** What the loop has met after reading [a]. *)
Lemma dedupe_loop_app seen unique a :
  ∃ seen' unique',
    (∀ b, dedupe_loop key seen unique (a ++ b)
          = dedupe_loop key seen' unique' b)
    ∧ (∀ k, k ∈ seen' ↔ k ∈ seen ∨ k ∈ key <$> a).
Proof.
  revert seen unique. induction a as [|r a IH]; intros seen unique.
  - exists seen, unique. split; [done|]. set_solver.
  - destruct (decide (key r ∈ seen)) as [Hin|Hnew].
    + destruct (IH seen unique) as (s' & u' & Hrun & Hkeys).
      exists s', u'. split.
      * intros b. rewrite <-app_comm_cons, dedupe_loop_cons_seen by done.
        apply Hrun.
      * intros k. rewrite Hkeys, fmap_cons, elem_of_cons. naive_solver.
    + destruct (IH ({[key r]} ∪ seen) (unique ++ [r])) as (s' & u' & Hrun & Hkeys).
      exists s', u'. split.
      * intros b. rewrite <-app_comm_cons. simpl.
        rewrite decide_False by done. apply Hrun.
      * intros k. rewrite Hkeys, fmap_cons, elem_of_cons. set_solver.
Qed.

(** A later row with the key of an earlier one changes nothing. *)
Lemma dedupe_by_drop_later pre r1 mid r2 post :
  key r1 = key r2 →
  dedupe_by key (pre ++ r1 :: mid ++ r2 :: post)
  = dedupe_by key (pre ++ r1 :: mid ++ post).
Proof.
  intros Hkey. unfold dedupe_by.
  destruct (dedupe_loop_app ∅ [] (pre ++ r1 :: mid)) as (s' & u' & Hrun & Hkeys).
  replace (pre ++ r1 :: mid ++ r2 :: post)
    with ((pre ++ r1 :: mid) ++ r2 :: post) by by rewrite <-app_assoc.
  replace (pre ++ r1 :: mid ++ post)
    with ((pre ++ r1 :: mid) ++ post) by by rewrite <-app_assoc.
  rewrite !Hrun. apply dedupe_loop_cons_seen.
  apply Hkeys. right. rewrite fmap_app, fmap_cons, <-Hkey. set_solver.
Qed.

(** The pass keeps the first row. *)
Lemma dedupe_by_head r rows :
  ∃ rest, dedupe_by key (r :: rows) = r :: rest.
Proof.
  unfold dedupe_by. rewrite dedupe_loop_cons_new by set_solver. eauto.
Qed.

End Dedupe.

Lemma filter_ext_in {A} (P1 P2 : A → Prop) `{!∀ x, Decision (P1 x)}
    `{!∀ x, Decision (P2 x)} (l : list A) :
  (∀ x, x ∈ l → P1 x ↔ P2 x) → filter P1 l = filter P2 l.
Proof.
  induction l as [|a l IH]; intros Hiff; [done|].
  rewrite !filter_cons.
  rewrite IH by (intros x Hx; apply Hiff; by right).
  destruct (decide (P1 a)) as [HP|HP]; destruct (decide (P2 a)) as [HQ|HQ];
    try done; exfalso; apply (Hiff a) in HP || apply (Hiff a) in HQ;
    try done; by left.
Qed.

(** The positional statement only looks at the keys of the rows given. *)
Lemma first_of_each_class_ext key1 key2 rows :
  (∀ r, r ∈ rows → key1 r = key2 r) →
  first_of_each_class key1 rows = first_of_each_class key2 rows.
Proof.
  intros Hkeys. unfold first_of_each_class. f_equal.
  apply filter_ext_in. intros [i r] (j & r0 & [= -> ->] & Hj)%elem_of_lookup_imap.
  unfold is_first; simpl. rewrite !Forall_forall.
  assert (Hr : key1 r0 = key2 r0) by (apply Hkeys; by eapply list_elem_of_lookup_2).
  split; intros Hall r' Hin; specialize (Hall r' Hin);
    apply subseteq_take in Hin; apply Hkeys in Hin; congruence.
Qed.

(** Case analysis on the comparisons of a goal about code points, dropping
    the impossible combinations as they appear. *)
Ltac split_codepoint :=
  repeat match goal with
         | |- context [N.leb ?a ?b] =>
             destruct (N.leb_spec a b); try (exfalso; lia)
         | |- context [N.ltb ?a ?b] =>
             destruct (N.ltb_spec a b); try (exfalso; lia)
         | |- context [N.eqb ?a ?b] =>
             destruct (N.eqb_spec a b); try (exfalso; lia)
         end.

Lemma latin1_lower_cases c :
  (65 ≤ c ≤ 90 ∧ Str.latin1_lower c = c + 32)
  ∨ (192 ≤ c ≤ 222 ∧ c ≠ 215 ∧ Str.latin1_lower c = c + 32)
  ∨ ((c < 65 ∨ 90 < c) ∧ (c < 192 ∨ 222 < c ∨ c = 215)
     ∧ Str.latin1_lower c = c).
Proof.
  unfold Str.latin1_lower. split_codepoint; simpl; lia.
Qed.

Lemma global_keep_lower c : global_keep (Str.latin1_lower c) = spec_keep_char c.
Proof.
  destruct (latin1_lower_cases c)
    as [[Hc ->]|[(Hc & Hx & ->)|(Hc & Hx & ->)]];
    unfold global_keep, spec_keep_char, is_ascii_alnum;
    split_codepoint; reflexivity.
Qed.

Lemma is_latin1_filter (P : N → Prop) `{!∀ c, Decision (P c)} s :
  Str.is_latin1 s = true → Str.is_latin1 (filter P s) = true.
Proof.
  unfold Str.is_latin1. rewrite !forallb_forall. intros Hall c Hin.
  apply Hall. apply list_elem_of_In. apply list_elem_of_In in Hin.
  by apply list_elem_of_filter in Hin as [_ ?].
Qed.

Lemma filter_keep_lower s :
  filter (λ c, global_keep c = true) (map Str.latin1_lower s)
  = map Str.latin1_lower (filter (λ c, spec_keep_char c = true) s).
Proof.
  induction s as [|c s IH]; [done|].
  simpl. rewrite !filter_cons, IH, global_keep_lower.
  by destruct (decide (spec_keep_char c = true)).
Qed.

Lemma global_key_spec `{PyRuntime} r :
  normalized_row r → global_key r = spec_global_key r.
Proof.
  intros (Hb & Hm & Hl). unfold global_key, spec_global_key.
  rewrite Hb, Hm. f_equal. unfold lower.
  rewrite Hl, is_latin1_filter by done. apply filter_keep_lower.
Qed.

(** ** The two passes of the program *)



(** C9. Both passes are idempotent. *)
Theorem dedupe_idempotent `{PyRuntime} (rows : list Row) :
  dedupe_local (dedupe_local rows) = dedupe_local rows
  ∧ dedupe_global (dedupe_global rows) = dedupe_global rows.
Proof. split; apply dedupe_by_idempotent. Qed.

(** C4. The adapter-local pass keeps, in order, the first row of each class
    of (lowercased brand, lowercased model), whole; a later row equal to an
    earlier one up to case changes nothing; and the two candidates of the
    scenario give the one row of the first, classified as a switch. *)
Theorem adapter_local_dedup `{PyRuntime} :
  (∀ rows,
     dedupe_local rows
     = first_of_each_class (λ r, (lower (brand r), lower (model r))) rows)
  ∧ (∀ pre r1 mid r2 post,
       lower (brand r1) = lower (brand r2) →
       lower (model r1) = lower (model r2) →
       dedupe_local (pre ++ r1 :: mid ++ r2 :: post)
       = dedupe_local (pre ++ r1 :: mid ++ post))
  ∧ (urljoin (py "https://mikrotik.com") (py "/product/crs326")
       = py "https://mikrotik.com/product/crs326" →
     ∀ url,
       assign_categories (dedupe_local (mikrotik_page url crs_page []))
       = [mkRow (py "switch") (py "MikroTik") (py "CRS326")
                (py "https://mikrotik.com/product/crs326")]).
Proof.
  split; [|split].
  - intros rows. apply dedupe_by_first_of_each_class.
  - intros pre r1 mid r2 post Hb Hm. apply dedupe_by_drop_later.
    unfold local_key. by rewrite Hb, Hm.
  - intros Hjoin url.
    change (mikrotik_page url crs_page [])
      with [mkRow [] (py "MikroTik") (py "CRS326")
              (urljoin mikrotik_base (py "/product/crs326"));
            mkRow [] (py "MikroTik") (py "crs326")
              (urljoin mikrotik_base (py "/product/crs326-dup"))].
    change mikrotik_base with (py "https://mikrotik.com"). rewrite Hjoin.
    reflexivity.
Qed.

Lemma adapter_local_dedup_witness :
  @urljoin example_runtime (py "https://mikrotik.com") (py "/product/crs326")
  = py "https://mikrotik.com/product/crs326"
  ∧ @assign_categories example_runtime
      (@dedupe_local example_runtime
         (@mikrotik_page example_runtime (py "https://mikrotik.com/products")
            crs_page []))
    = [mkRow (py "switch") (py "MikroTik") (py "CRS326")
             (py "https://mikrotik.com/product/crs326")].
Proof.
  split; [reflexivity|].
  exact (proj2 (proj2 (@adapter_local_dedup example_runtime)) eq_refl
           (py "https://mikrotik.com/products")).
Defined.

(** C7. ["hAP ac²  "] is cleaned to ["hAP ac²"]; no switch keyword occurs in
    its lower case, an access-point keyword does, and the classifier of the
    MikroTik adapter gives it the category [ap]. *)
Theorem hap_ac2_is_ap `{PyRuntime} :
  clean_text (Some (hAP_ac2 ++ py "  ")) = hAP_ac2
  ∧ any_in switch_keywords (lower hAP_ac2) = false
  ∧ any_in ap_keywords (lower hAP_ac2) = true
  ∧ classify hAP_ac2 = py "ap"
  ∧ ∀ url, assign_categories [mkRow [] (py "MikroTik") hAP_ac2 url]
           = [mkRow (py "ap") (py "MikroTik") hAP_ac2 url].
Proof. repeat split. Qed.

(** ** Text helpers *)

Lemma islinebreak_isspace c : Str.islinebreak c = true → Str.isspace c = true.
Proof.
  unfold Str.islinebreak, Str.isspace. split_codepoint; simpl; done.
Qed.

Lemma lstrip_by_elem p s c : c ∈ Str.lstrip_by p s → c ∈ s.
Proof.
  induction s as [|a s IH]; simpl; [done|].
  destruct (p a); [|done]. intros Hin. right. by apply IH.
Qed.

Lemma strip_by_elem p s c : c ∈ Str.strip_by p s → c ∈ s.
Proof.
  unfold Str.strip_by, Str.rstrip_by. intros Hin.
  apply list_elem_of_In, in_rev, list_elem_of_In, lstrip_by_elem in Hin.
  apply list_elem_of_In, in_rev, list_elem_of_In in Hin.
  by apply lstrip_by_elem in Hin.
Qed.

(** After [re.sub(r'\s+', ' ', s)] the only whitespace left is SPACE. *)
Lemma sub_runs_from_elem cls r b s c :
  c ∈ Str.sub_runs_from cls r b s → c = r ∨ cls c = false.
Proof.
  revert b. induction s as [|a s IH]; intros b; simpl; [by intros ?%elem_of_nil|].
  destruct (cls a) eqn:Ha.
  - destruct b; [apply IH|].
    intros [->|Hin]%elem_of_cons; [by left | by eapply IH].
  - intros [->|Hin]%elem_of_cons; [by right | by eapply IH].
Qed.

Lemma clean_text_no_linebreak s c :
  c ∈ clean_text s → Str.islinebreak c = false.
Proof.
  destruct s as [s|]; simpl; [|by intros ?%elem_of_nil].
  intros Hin%strip_by_elem. apply sub_runs_from_elem in Hin as [->|Hc]; [done|].
  destruct (Str.islinebreak c) eqn:Hlb; [|done].
  apply islinebreak_isspace in Hlb. congruence.
Qed.

Lemma splitlines_from_no_break cur s :
  (∀ c, c ∈ s → Str.islinebreak c = false) →
  Str.splitlines_from cur s
  = match cur ++ s with [] => [] | _ => [cur ++ s] end.
Proof.
  revert cur. induction s as [|a s IH]; intros cur Hs; simpl.
  - rewrite app_nil_r. done.
  - rewrite (Hs a) by by left.
    rewrite IH by (intros c Hc; apply Hs; by right).
    by rewrite <-app_assoc.
Qed.

Lemma splitlines_from_nonempty cur s :
  cur ++ s ≠ [] → Str.splitlines_from cur s ≠ [].
Proof.
  revert cur. induction s as [|a s IH]; intros cur Hne; simpl.
  - rewrite app_nil_r in Hne. by destruct cur.
  - destruct (Str.islinebreak a).
    + destruct s; [done|]. by destruct (_ && _).
    + apply IH. rewrite <-app_assoc. by destruct cur.
Qed.

(** The index [0] of [text.splitlines()] is in range for a non-empty
    [text]. *)
Lemma splitlines_nonempty s : s ≠ [] → Str.splitlines s ≠ [].
Proof. intros Hne. by apply splitlines_from_nonempty. Qed.

(** The "first line" of a cleaned text is the whole text. *)
Lemma first_line_clean_text s : first_line (clean_text s) = clean_text s.
Proof.
  unfold first_line, Str.splitlines.
  rewrite splitlines_from_no_break by apply clean_text_no_linebreak.
  simpl. by destruct (clean_text s).
Qed.

(** [strip] is idempotent, so a cleaned text is trimmed. *)
Lemma lstrip_by_idem p s : Str.lstrip_by p (Str.lstrip_by p s) = Str.lstrip_by p s.
Proof.
  induction s as [|c s IH]; simpl; [done|].
  destruct (p c) eqn:Hc; [done|]. simpl. by rewrite Hc.
Qed.

Lemma lstrip_by_head p c s : p c = false → Str.lstrip_by p (c :: s) = c :: s.
Proof. intros Hc. simpl. by rewrite Hc. Qed.

Lemma lstrip_by_last p s c :
  p c = false → ∃ s', Str.lstrip_by p (s ++ [c]) = s' ++ [c].
Proof.
  intros Hc. induction s as [|a s [s' IH]]; simpl.
  - rewrite Hc. by exists [].
  - destruct (p a); [by exists s'|]. by exists (a :: s).
Qed.

Lemma strip_by_idem p s : Str.strip_by p (Str.strip_by p s) = Str.strip_by p s.
Proof.
  unfold Str.strip_by, Str.rstrip_by.
  assert (Hl : Str.lstrip_by p (rev (Str.lstrip_by p (rev (Str.lstrip_by p s))))
               = rev (Str.lstrip_by p (rev (Str.lstrip_by p s)))).
  { destruct (Str.lstrip_by p s) as [|c t] eqn:Ht; [done|].
    assert (Hc : p c = false).
    { assert (Hidem := lstrip_by_idem p s). rewrite Ht in Hidem.
      simpl in Hidem. destruct (p c) eqn:Hpc; [|done].
      exfalso. apply (f_equal length) in Hidem. simpl in Hidem.
      assert (Hle : ∀ l, (length (Str.lstrip_by p l) ≤ length l)%nat).
      { clear. induction l as [|a l IH]; simpl; [lia|].
        destruct (p a); simpl; lia. }
      specialize (Hle t). lia. }
    simpl rev. destruct (lstrip_by_last p (rev t) c Hc) as [t' ->].
    rewrite rev_app_distr. simpl. by rewrite Hc. }
  rewrite Hl, rev_involutive. by rewrite lstrip_by_idem.
Qed.

Lemma clean_text_trimmed s : Str.strip (clean_text s) = clean_text s.
Proof. destruct s as [s|]; [apply strip_by_idem | done]. Qed.

(** ** Candidate extraction *)

Lemma fold_left_append {A B} (step : list B → A → list B) (g : A → list B)
    (xs : list A) (st : list B) :
  (∀ st x, step st x = st ++ g x) →
  fold_left step xs st = st ++ flat_map g xs.
Proof.
  intros Hstep. revert st. induction xs as [|x xs IH]; intros st; simpl.
  - by rewrite app_nil_r.
  - by rewrite IH, Hstep, <-app_assoc.
Qed.


Section Candidates.
Context `{PyRuntime}.

Lemma mikrotik_element_spec url st el :
  mikrotik_element url st el
  = (st.1 ++ mikrotik_candidate url el,
     st.2 ++ (model <$> mikrotik_candidate url el)).
Proof.
  unfold mikrotik_element, mikrotik_candidate, candidate_kept.
  destruct (truthy _ && _); simpl; [done|].
  rewrite !app_nil_r. by destruct st.
Qed.

Lemma mikrotik_elements_spec url els st :
  fold_left (mikrotik_element url) els st
  = (st.1 ++ flat_map (mikrotik_candidate url) els,
     st.2 ++ (model <$> flat_map (mikrotik_candidate url) els)).
Proof.
  revert st. induction els as [|el els IH]; intros st; simpl.
  - rewrite !app_nil_r. by destruct st.
  - rewrite IH, mikrotik_element_spec. simpl.
    by rewrite fmap_app, <-!app_assoc.
Qed.

Lemma mikrotik_selectors_spec url s sels st :
  fold_left (λ st sel, fold_left (mikrotik_element url) (select s sel) st)
            sels st
  = (st.1 ++ flat_map (λ sel, flat_map (mikrotik_candidate url) (select s sel)) sels,
     st.2 ++ (model <$> flat_map (λ sel, flat_map (mikrotik_candidate url) (select s sel)) sels)).
Proof.
  revert st. induction sels as [|sel sels IH]; intros st; simpl.
  - rewrite !app_nil_r. by destruct st.
  - rewrite IH, mikrotik_elements_spec. simpl.
    by rewrite fmap_app, <-!app_assoc.
Qed.

Lemma ubiquiti_element_spec url rows el :
  ubiquiti_element url rows el = rows ++ ubiquiti_candidate url el.
Proof.
  unfold ubiquiti_element, ubiquiti_candidate, candidate_kept.
  destruct (truthy _ && _); [done|]. by rewrite app_nil_r.
Qed.

Lemma ubiquiti_select_spec url s rows :
  ubiquiti_select url s rows
  = rows ++ flat_map (λ sel, flat_map (ubiquiti_candidate url) (select s sel))
                     ubiquiti_selectors.
Proof.
  unfold ubiquiti_select.
  apply (fold_left_append _
           (λ sel, flat_map (ubiquiti_candidate url) (select s sel))).
  intros st sel. apply fold_left_append. apply ubiquiti_element_spec.
Qed.


End Candidates.



(** ** The card heuristic *)

(** C3, on a page where [h3] matches and a card has the two-line text
    "CRS326 / Cloud Router Switch": the card loop runs although the selector
    loop found a candidate, and the row it adds has the whole cleaned text
    as its model, not the first line. In general the first line of a
    cleaned text is the whole text. *)
Theorem card_loop_on_matched_page `{PyRuntime} :
  mikrotik_page (py "https://mikrotik.com/products/group/switches") card_page []
  = [mkRow [] (py "MikroTik") (py "CRS326")
       (py "https://mikrotik.com/products/group/switches");
     mkRow [] (py "MikroTik") (py "CRS326 Cloud Router Switch")
       (py "https://mikrotik.com/products/group/switches")]
  ∧ (mikrotik_selectors (py "https://mikrotik.com/products/group/switches")
       card_page ([], [])).2 = [py "CRS326"]
  ∧ first_line card_text = py "CRS326"
  ∧ ∀ s, first_line (clean_text s) = clean_text s.
Proof.
  split; [reflexivity|]. split; [reflexivity|]. split; [reflexivity|].
  apply first_line_clean_text.
Qed.

(** ** Effects: failures stay where they happen *)

Lemma bind_unfold {A B} (m : M A) (k : A → M B) : (m ≫= k) = bind m k.
Proof. reflexivity. Qed.

Lemma bind_ret_l {A B} (a : A) (k : A → M B) : bind (ret a) k = k a.
Proof. unfold bind, ret. by destruct (k a). Qed.

Lemma bind_emit {B} (e : Event) (k : unit → M B) :
  bind (emit e) k = (e :: (k tt).1, (k tt).2).
Proof. unfold bind, emit. by destruct (k tt). Qed.

Lemma bind_assoc {A B C} (m : M A) (k : A → M B) (k' : B → M C) :
  bind (bind m k) k' = bind m (λ a, bind (k a) k').
Proof.
  destruct m as [ev [a|]]; simpl; [|done].
  destruct (k a) as [ev1 [b|]]; simpl; [|done].
  destruct (k' b) as [ev2 c]. by rewrite app_assoc.
Qed.

Lemma bind_some {A B} (ev : list Event) (a : A) (k : A → M B) :
  bind (ev, Some a) k = (ev ++ (k a).1, (k a).2).
Proof. unfold bind. by destruct (k a). Qed.

(** One [try] block of [run_all]. *)
Lemma try_adapter (a : Adapter) (m : M (list Row)) (rows_all : list Row) :
  try_except (x ← m; ret (rows_all ++ x)) (print (MsgFailed a);; ret rows_all)
  = (adapter_log a m, Some (rows_all ++ contribution m)).
Proof.
  unfold adapter_log, contribution.
  destruct m as [ev [x|]]; simpl; by rewrite ?app_nil_r.
Qed.

Section Isolation.
Context `{PyRuntime} (w : World).

Lemma gather_spec use_selenium :
  gather w use_selenium
  = (adapter_log MikroTik (fetch_mikrotik w)
     ++ adapter_log Ubiquiti (run_ubiquiti w use_selenium)
     ++ adapter_log Cambium (fetch_cambium w)
     ++ adapter_log Mimosa (fetch_mimosa w),
     Some (contribution (fetch_mikrotik w)
           ++ contribution (run_ubiquiti w use_selenium)
           ++ contribution (fetch_cambium w)
           ++ contribution (fetch_mimosa w))).
Proof.
  unfold gather.
  repeat (rewrite try_adapter || (rewrite bind_unfold, bind_some; cbn beta)).
  cbn [fst snd app]. by rewrite <-!app_assoc.
Qed.

Lemma mikrotik_card_spec url card :
  ∃ add, ∀ rows, mikrotik_card url rows card = rows ++ add.
Proof.
  unfold mikrotik_card. destruct (truthy _ && _).
  - eexists. intros; reflexivity.
  - exists []. intros. by rewrite app_nil_r.
Qed.

Lemma mikrotik_cards_spec url cards :
  ∃ add, ∀ rows, fold_left (mikrotik_card url) cards rows = rows ++ add.
Proof.
  induction cards as [|card cards [add IH]]; simpl.
  - exists []. intros. by rewrite app_nil_r.
  - destruct (mikrotik_card_spec url card) as [add1 H1].
    exists (add1 ++ add). intros rows. by rewrite IH, H1, <-app_assoc.
Qed.

(** A page adds to [rows] what it gives from the empty list. *)
Lemma mikrotik_page_app url s rows :
  mikrotik_page url s rows = rows ++ mikrotik_page url s [].
Proof.
  unfold mikrotik_page, mikrotik_selectors.
  rewrite !mikrotik_selectors_spec. cbn [fst snd].
  destruct (mikrotik_cards_spec url
              (select s (py ".product, .product-card, .card, .catalog-item")))
    as [add Hadd].
  rewrite !Hadd. by rewrite <-!app_assoc.
Qed.

(** The crawl: every candidate page is requested; a page that fails is
    logged and skipped, the others add their rows. *)
Lemma mikrotik_crawl_from urls rows :
  for_each urls rows (λ rows url,
    try_except
      (s ← get w url; ret (mikrotik_page url s rows))
      (print (MsgSkip MikroTik url);; ret rows))
  = (flat_map (λ url, HttpGet url ::
                      match http_get w url with
                      | Some _ => []
                      | None => [Print (MsgSkip MikroTik url)]
                      end) urls,
     Some (rows ++ flat_map (mikrotik_page_rows w) urls)).
Proof.
  revert rows. induction urls as [|url urls IH]; intros rows.
  - simpl. by rewrite app_nil_r.
  - cbn [for_each flat_map]. rewrite bind_unfold.
    unfold get at 1, mikrotik_page_rows at 1.
    destruct (http_get w url) as [s|] eqn:Hget.
    + unfold try_except, bind; simpl. rewrite IH. simpl.
      by rewrite (mikrotik_page_app url s rows), <-app_assoc.
    + unfold try_except, bind; simpl. rewrite IH. simpl. done.
Qed.

Lemma mikrotik_crawl_spec urls :
  mikrotik_crawl w urls
  = (flat_map (λ url, HttpGet url ::
                      match http_get w url with
                      | Some _ => []
                      | None => [Print (MsgSkip MikroTik url)]
                      end) urls,
     Some (flat_map (mikrotik_page_rows w) urls)).
Proof. apply mikrotik_crawl_from. Qed.

Lemma fetch_mikrotik_spec soup :
  http_get w (py "https://mikrotik.com/products") = Some soup →
  let urls := sorted (mikrotik_links soup) in
  let unique := dedupe_local (flat_map (mikrotik_page_rows w) urls) in
  fetch_mikrotik w
  = ([Print (MsgFetching MikroTik);
      HttpGet (py "https://mikrotik.com/products");
      Print (MsgFoundPages (size (mikrotik_links soup)))]
     ++ flat_map (λ url, HttpGet url ::
                         match http_get w url with
                         | Some _ => []
                         | None => [Print (MsgSkip MikroTik url)]
                         end) urls
     ++ [Print (MsgCollected MikroTik (length unique))],
     Some (assign_categories unique)).
Proof.
  intros Hsoup urls unique. unfold fetch_mikrotik, get.
  change (mikrotik_base ++ py "/products")
    with (py "https://mikrotik.com/products").
  rewrite Hsoup.
  unfold mbind, M_bind, bind, print, emit, ret.
  cbn -[mikrotik_crawl mikrotik_links sorted dedupe_local assign_categories].
  rewrite mikrotik_crawl_spec.
  cbn -[mikrotik_links sorted dedupe_local assign_categories].
  done.
Qed.

End Isolation.



(** ** Postconditions *)

Lemma post_ret {A} (P : A → Prop) (a : A) : P a → post P (ret a).
Proof. intros HP a' [= <-]. done. Qed.

Lemma post_raise {A} (P : A → Prop) : post P raise.
Proof. intros a [=]. Qed.

Lemma post_bind {A B} (P : A → Prop) (Q : B → Prop) (m : M A) (k : A → M B) :
  post P m → (∀ a, P a → post Q (k a)) → post Q (m ≫= k).
Proof.
  intros Hm Hk b. rewrite bind_unfold. destruct m as [ev [a|]]; simpl; [|done].
  specialize (Hk a (Hm a eq_refl) b).
  destruct (k a) as [ev' b']. exact Hk.
Qed.

Lemma post_bind_any {A B} (Q : B → Prop) (m : M A) (k : A → M B) :
  (∀ a, post Q (k a)) → post Q (m ≫= k).
Proof. intros Hk. apply (post_bind (λ _, True)); [done|]. intros a _. apply Hk. Qed.

Lemma post_try {A} (P : A → Prop) (m handler : M A) :
  post P m → post P handler → post P (try_except m handler).
Proof.
  intros Hm Hh a. destruct m as [ev [a'|]]; simpl; [apply Hm|].
  specialize (Hh a). destruct handler as [ev' b]. exact Hh.
Qed.

Lemma post_for_each {A S} (I : S → Prop) (xs : list A) (st : S)
    (body : S → A → M S) :
  I st → (∀ st x, I st → post I (body st x)) → post I (for_each xs st body).
Proof.
  intros Hst Hbody. revert st Hst. induction xs as [|x xs IH]; intros st Hst.
  - by apply post_ret.
  - simpl. eapply post_bind; [by apply Hbody|]. apply IH.
Qed.

Lemma post_contribution (P : Row → Prop) (m : M (list Row)) :
  post (Forall P) m → Forall P (contribution m).
Proof.
  intros Hm. unfold contribution. destruct m as [ev [rows|]]; simpl; [|done].
  by apply Hm.
Qed.

(** ** Every row carries one of the four labels *)

Lemma Forall_fold_left {A B} (P : B → Prop) (step : list B → A → list B)
    (xs : list A) (st : list B) :
  (∀ st x, Forall P st → Forall P (step st x)) →
  Forall P st → Forall P (fold_left step xs st).
Proof.
  intros Hstep. revert st. induction xs as [|x xs IH]; intros st Hst; simpl;
    [done|]. apply IH. by apply Hstep.
Qed.

Lemma Forall_flat_map {A B} (P : B → Prop) (f : A → list B) (l : list A) :
  (∀ x, Forall P (f x)) → Forall P (flat_map f l).
Proof.
  intros Hf. induction l as [|x l IH]; simpl; [done|].
  apply Forall_app. by split.
Qed.

Lemma Forall_snoc {A} (P : A → Prop) (l : list A) (x : A) :
  Forall P l → P x → Forall P (l ++ [x]).
Proof. intros Hl Hx. apply Forall_app. split; [done|]. by constructor. Qed.

Lemma dedupe_loop_Forall (P : Row → Prop) key seen unique rows :
  Forall P unique → Forall P rows → Forall P (dedupe_loop key seen unique rows).
Proof.
  revert seen unique. induction rows as [|r rows IH]; intros seen unique Hu Hr;
    simpl; [done|].
  apply Forall_cons in Hr as [Hr Hrows].
  destruct (decide (key r ∈ seen)); apply IH; try done.
  by apply Forall_snoc.
Qed.

Lemma dedupe_by_Forall (P : Row → Prop) key rows :
  Forall P rows → Forall P (dedupe_by key rows).
Proof. intros Hr. by apply dedupe_loop_Forall. Qed.

Section Labels.
Context `{PyRuntime} (w : World).

Lemma classify_label m : classify m ∈ four_labels.
Proof.
  unfold classify, four_labels.
  repeat match goal with |- context [if ?b then _ else _] => destruct b end;
    set_solver.
Qed.

Lemma four_labels_nonempty c : c ∈ four_labels → c ≠ [].
Proof.
  unfold four_labels. intros Hin ->.
  repeat (apply elem_of_cons in Hin as [Hin|Hin]; [discriminate Hin|]).
  by apply elem_of_nil in Hin.
Qed.

Lemma adapter_row_labelled a r : adapter_row a r → labelled r.
Proof.
  assert (Hap : py "ap" ∈ four_labels) by (unfold four_labels; set_solver).
  assert (Hptp : py "ptp" ∈ four_labels) by (unfold four_labels; set_solver).
  destruct a; simpl; intros [_ Hc]; split;
    try apply four_labels_nonempty; by rewrite ?Hc.
Qed.

(** A row built from a literal brand and a cleaned text. *)
Lemma built_row_intro a c b s url :
  adapter_row a (mkRow c b (clean_text s) url) → Str.strip b = b →
  built_row a (mkRow c b (clean_text s) url).
Proof.
  intros Ha Hb. split; [done|]. split; [done|]. apply clean_text_trimmed.
Qed.

Lemma mikrotik_page_rows_brand url :
  Forall (λ r, brand r = py "MikroTik" ∧ Str.strip (model r) = model r)
         (mikrotik_page_rows w url).
Proof.
  unfold mikrotik_page_rows. destruct (http_get w url) as [s|]; [|done].
  unfold mikrotik_page, mikrotik_selectors.
  rewrite mikrotik_selectors_spec. cbn [fst snd app].
  apply Forall_fold_left.
  - intros st card Hst. unfold mikrotik_card.
    destruct (truthy (clean_text _)) eqn:Ht.
    + rewrite first_line_clean_text.
      destruct (truthy _ && _); [|done]. apply Forall_snoc; [done|].
      split; [done | apply clean_text_trimmed].
    + done.
  - apply Forall_flat_map. intros sel. apply Forall_flat_map. intros el.
    unfold mikrotik_candidate. destruct (candidate_kept _ _); [|done].
    repeat constructor. apply clean_text_trimmed.
Qed.

Lemma assign_categories_rows unique :
  Forall (λ r, brand r = py "MikroTik" ∧ Str.strip (model r) = model r) unique →
  Forall (built_row MikroTik) (assign_categories unique).
Proof.
  intros Hb. unfold assign_categories. apply Forall_fmap.
  eapply Forall_impl; [exact Hb|]. intros r [Hr Hm]. simpl.
  split; [split; [done | apply classify_label]|].
  split; simpl; [by rewrite Hr | done].
Qed.

Lemma fetch_mikrotik_rows :
  Forall (built_row MikroTik) (contribution (fetch_mikrotik w)).
Proof.
  destruct (http_get w (py "https://mikrotik.com/products")) as [soup|] eqn:Hs.
  - rewrite (fetch_mikrotik_spec w soup Hs). unfold contribution; simpl.
    apply assign_categories_rows, dedupe_by_Forall, Forall_flat_map.
    apply mikrotik_page_rows_brand.
  - apply post_contribution. unfold fetch_mikrotik.
    apply post_bind_any. intros _. unfold get.
    change (mikrotik_base ++ py "/products")
      with (py "https://mikrotik.com/products"). rewrite Hs.
    intros a. vm_compute. discriminate.
Qed.

Lemma products_anchor_rows (a : Adapter) base brand_name rows anchor :
  (∀ name url, adapter_row a (mkRow (py "ptp") brand_name name url)) →
  Str.strip brand_name = brand_name →
  Forall (built_row a) rows →
  Forall (built_row a) (products_anchor base brand_name rows anchor).
Proof.
  intros Hrow Hb Hrows. unfold products_anchor.
  destruct (_ && _); [|done]. destruct (truthy _); [|done].
  apply Forall_snoc; [done|]. by apply built_row_intro.
Qed.

Lemma fetch_mimosa_rows :
  Forall (built_row Mimosa) (contribution (fetch_mimosa w)).
Proof.
  assert (Hanchor : ∀ rows anchor,
             Forall (built_row Mimosa) rows →
             Forall (built_row Mimosa)
               (products_anchor mimosa_base (py "Mimosa") rows anchor)).
  { intros rows anchor. by apply products_anchor_rows. }
  apply post_contribution. unfold fetch_mimosa.
  apply post_bind_any; intros _. apply post_bind_any; intros s.
  eapply post_bind.
  - apply (post_for_each (Forall (built_row Mimosa))).
    + by apply Forall_fold_left.
    + intros rows cat Hrows. apply post_try; [|by apply post_ret].
      apply post_bind_any; intros ss. apply post_ret.
      by apply Forall_fold_left.
  - intros rows Hrows. apply post_bind_any; intros _. apply post_ret.
    by apply dedupe_by_Forall.
Qed.

Lemma fetch_cambium_rows :
  Forall (built_row Cambium) (contribution (fetch_cambium w)).
Proof.
  assert (Hanchor : ∀ rows anchor,
             Forall (built_row Cambium) rows →
             Forall (built_row Cambium)
               (products_anchor cambium_base (py "Cambium") rows anchor)).
  { intros rows anchor. by apply products_anchor_rows. }
  apply post_contribution. unfold fetch_cambium.
  apply post_bind_any; intros _. apply post_bind_any; intros s.
  eapply post_bind.
  - apply (post_try (Forall (built_row Cambium))).
    + apply post_bind_any; intros s2. apply post_ret.
      apply Forall_fold_left; [|by apply Forall_fold_left].
      intros rows el Hrows. unfold cambium_finder_element.
      destruct (truthy _); [|done]. apply Forall_snoc; [done|].
      rewrite first_line_clean_text. by apply built_row_intro.
    + apply post_ret. by apply Forall_fold_left.
  - intros rows Hrows. apply post_bind_any; intros _. apply post_ret.
    by apply dedupe_by_Forall.
Qed.

Lemma ubiquiti_page_rows url s rows :
  Forall (built_row Ubiquiti) rows →
  Forall (built_row Ubiquiti) (ubiquiti_page url s rows).
Proof.
  intros Hrows. unfold ubiquiti_page. apply Forall_fold_left.
  - intros st a Hst. unfold ubiquiti_anchor.
    destruct (_ || _); [|done]. destruct (truthy _); [|done].
    apply Forall_snoc; [done|]. by apply built_row_intro.
  - rewrite ubiquiti_select_spec. apply Forall_app. split; [done|].
    apply Forall_flat_map. intros sel. apply Forall_flat_map. intros el.
    unfold ubiquiti_candidate. destruct (candidate_kept _ _); [|done].
    constructor; [|done]. by apply built_row_intro.
Qed.

Lemma fetch_ubiquiti_rows use_selenium driver :
  post (Forall (built_row Ubiquiti)) (fetch_ubiquiti w use_selenium driver).
Proof.
  unfold fetch_ubiquiti.
  eapply (post_bind (λ st, Forall (built_row Ubiquiti) st.1)).
  - apply (post_for_each (λ st, Forall (built_row Ubiquiti) st.1)); [done|].
    intros [rows tried] url Hrows. simpl in Hrows.
    destruct (decide (url ∈ tried)); [by apply post_ret|].
    apply post_try.
    + apply post_bind_any; intros s. apply post_ret. simpl.
      by apply ubiquiti_page_rows.
    + apply post_bind_any; intros _. by apply post_ret.
  - intros st Hst. apply post_bind_any; intros _. apply post_ret.
    by apply dedupe_by_Forall.
Qed.

Lemma run_ubiquiti_rows use_selenium :
  Forall (built_row Ubiquiti) (contribution (run_ubiquiti w use_selenium)).
Proof.
  apply post_contribution. unfold run_ubiquiti.
  destruct (use_selenium && SELENIUM_OK w); [|apply fetch_ubiquiti_rows].
  apply post_bind_any; intros _. apply post_bind_any; intros _.
  eapply post_bind; [apply fetch_ubiquiti_rows|].
  intros ub Hub. apply post_bind_any; intros _. by apply post_ret.
Qed.

(** What [run_all] gathers: rows built by one of the adapters. *)
Lemma gathered_rows_built use_selenium :
  Forall (λ r, ∃ a, built_row a r)
         (contribution (fetch_mikrotik w)
          ++ contribution (run_ubiquiti w use_selenium)
          ++ contribution (fetch_cambium w)
          ++ contribution (fetch_mimosa w)).
Proof.
  pose proof fetch_mikrotik_rows as Hmk.
  pose proof (run_ubiquiti_rows use_selenium) as Hub.
  pose proof fetch_cambium_rows as Hcb.
  pose proof fetch_mimosa_rows as Hmm.
  repeat (apply Forall_app; split);
    (eapply Forall_impl; [eassumption|]); intros r Hr; by eexists.
Qed.

(** The rows that reach the global pass are trimmed, as the data model
    says: the first two conditions of [normalized_row]. *)
Lemma gathered_rows_are_trimmed use_selenium :
  ∃ ev rows_all,
    gather w use_selenium = (ev, Some rows_all) ∧ Forall trimmed_row rows_all.
Proof.
  rewrite gather_spec. eexists _, _. split; [reflexivity|].
  eapply Forall_impl; [apply gathered_rows_built|].
  by intros r [a [_ Hr]].
Qed.

(** So the global pass of [run_all] is the positional statement with the
    key of the specification as soon as the models gathered are Latin-1. *)
Lemma gathered_global_pass use_selenium :
  ∃ ev rows_all,
    gather w use_selenium = (ev, Some rows_all)
    ∧ (Forall (λ r, Str.is_latin1 (model r) = true) rows_all →
       dedupe_global rows_all = first_of_each_class spec_global_key rows_all).
Proof.
  destruct (gathered_rows_are_trimmed use_selenium) as (ev & rows & Hg & Htrim).
  exists ev, rows. split; [done|]. intros Hlatin.
  unfold dedupe_global. rewrite dedupe_by_first_of_each_class.
  apply first_of_each_class_ext. intros r Hr. apply global_key_spec.
  rewrite Forall_forall in Htrim, Hlatin.
  destruct (Htrim r Hr) as [Hb Hm]. repeat split; auto.
Qed.

End Labels.

(** C10. Whatever the sites answer, the rows that [run_all] gathers, and so
    the rows left by the global pass, carry one of the labels router,
    switch, ap, ptp, never the empty one: MikroTik rows get a label of the
    four from the classifier, Ubiquiti rows are [ap], Cambium and Mimosa
    rows are [ptp]. *)
Theorem gathered_rows_are_labelled `{PyRuntime} (w : World)
    (use_selenium : bool) :
  Forall (adapter_row MikroTik) (contribution (fetch_mikrotik w))
  ∧ Forall (adapter_row Ubiquiti) (contribution (run_ubiquiti w use_selenium))
  ∧ Forall (adapter_row Cambium) (contribution (fetch_cambium w))
  ∧ Forall (adapter_row Mimosa) (contribution (fetch_mimosa w))
  ∧ ∃ ev rows_all,
      gather w use_selenium = (ev, Some rows_all)
      ∧ Forall labelled rows_all
      ∧ Forall labelled (dedupe_global rows_all).
Proof.
  assert (Himpl : ∀ a rows, Forall (built_row a) rows → Forall (adapter_row a) rows).
  { intros a rows Hrows. eapply Forall_impl; [exact Hrows|]. by intros r [Hr _]. }
  pose proof (Himpl _ _ (fetch_mikrotik_rows w)) as Hmk.
  pose proof (Himpl _ _ (run_ubiquiti_rows w use_selenium)) as Hub.
  pose proof (Himpl _ _ (fetch_cambium_rows w)) as Hcb.
  pose proof (Himpl _ _ (fetch_mimosa_rows w)) as Hmm.
  repeat (split; [done|]).
  rewrite gather_spec. eexists _, _. split; [reflexivity|].
  assert (Hall : Forall labelled
            (contribution (fetch_mikrotik w)
             ++ contribution (run_ubiquiti w use_selenium)
             ++ contribution (fetch_cambium w)
             ++ contribution (fetch_mimosa w))).
  { repeat (apply Forall_app; split);
      (eapply Forall_impl; [eassumption|]); apply adapter_row_labelled. }
  split; [done|]. by apply dedupe_by_Forall.
Qed.

(** ** The exit status *)

(** With the flag and without the module, the process prints one line and
    exits with status 1 before any request. *)
Lemma main_selenium_unavailable `{PyRuntime} (w : World) :
  SELENIUM_OK w = false → main w true = ([Print MsgSeleniumUnavailable], 1).
Proof. intros Hok. unfold main. by rewrite Hok. Qed.

(** C6, where no site answers and the flag is not given: the four adapters
    fail or return nothing, [run_all] writes the main CSV with its header
    only, and the grouping of the empty frame raises; the process ends with
    status 1. *)
Theorem exit_status_when_nothing_is_gathered `{PyRuntime} :
  (gather offline_world false).2 = Some []
  ∧ (main offline_world false).2 = 1
  ∧ Print MsgSeleniumUnavailable ∉ (main offline_world false).1
  ∧ WriteFile (py "output_products/all_products_20240101_000000.csv")
              (py "category,brand,model,source_url" ++ [13; 10])
    ∈ (main offline_world false).1.
Proof.
  split; [reflexivity|]. split; [reflexivity|]. split.
  - vm_compute. intros Hin.
    repeat (apply elem_of_cons in Hin as [Hin|Hin]; [discriminate Hin|]).
    by apply elem_of_nil in Hin.
  - vm_compute. repeat first [left | right].
Qed.

(** ** The CSV round trip *)

Lemma list_pair_ind {A} (P : list A → Prop) :
  P [] → (∀ x, P [x]) → (∀ x y l, P l → P (y :: l) → P (x :: y :: l)) →
  ∀ l, P l.
Proof.
  intros Hnil Hone Hstep l.
  enough (P l ∧ ∀ x, P (x :: l)) by tauto.
  induction l as [|y l [IH1 IH2]]; [by split|].
  split; [apply IH2|]. intros x. apply Hstep; [done | apply IH2].
Qed.

Section RoundTrip.
Import Csv.

Lemma feed_app rd a b :
  feed rd (a ++ b)
  = match feed rd a with Some rd' => feed rd' b | None => None end.
Proof.
  revert rd. induction a as [|c a IH]; intros rd; simpl; [done|].
  destruct (process_char rd (Some c)); [apply IH | done].
Qed.

Lemma feed_snoc rd0 cur rd c rd' :
  feed rd0 cur = Some rd → process_char rd (Some c) = Some rd' →
  feed rd0 (cur ++ [c]) = Some rd'.
Proof. intros H0 H1. rewrite feed_app, H0. simpl. by rewrite H1. Qed.

(** *** One character of the text *)

Lemma resume_plain rd0 cur c s out :
  c ≠ 10 → c ≠ 13 →
  resume rd0 cur (c :: s) out = resume rd0 (cur ++ [c]) s out.
Proof.
  intros H10 H13. unfold resume. simpl.
  by rewrite (proj2 (N.eqb_neq c 10)), (proj2 (N.eqb_neq c 13)).
Qed.

Lemma resume_lf rd0 cur s out :
  resume rd0 cur (10 :: s) out = end_line rd0 (cur ++ [10]) s out.
Proof. reflexivity. Qed.

Lemma resume_crlf rd0 cur s out :
  resume rd0 cur (13 :: 10 :: s) out = end_line rd0 (cur ++ [13; 10]) s out.
Proof. reflexivity. Qed.

Lemma resume_cr rd0 cur c s out :
  c ≠ 10 →
  resume rd0 cur (13 :: c :: s) out = end_line rd0 (cur ++ [13]) (c :: s) out.
Proof.
  intros H10. unfold resume, end_line.
  assert (Hl : readlines_from cur (13 :: c :: s)
               = (cur ++ [13]) :: readlines_from [] (c :: s)).
  { change (readlines_from cur (13 :: c :: s))
      with (if c =? 10 then (cur ++ [13; c]) :: readlines_from [] s
            else (cur ++ [13]) :: readlines_from [] (c :: s)).
    by rewrite (proj2 (N.eqb_neq c 10)). }
  rewrite Hl. reflexivity.
Qed.

(** *** Inside a quoted field *)

Lemma end_line_in_quoted rd0 cur fld fs line s out :
  feed rd0 cur = Some (mkReader IN_QUOTED_FIELD fld fs) →
  Forall (λ c, c ≠ 34) line →
  end_line rd0 (cur ++ line) s out
  = resume (mkReader IN_QUOTED_FIELD (fld ++ line) fs) [] s out.
Proof.
  intros Hcur Hline. unfold end_line. rewrite feed_app, Hcur.
  assert (Hfeed : ∀ fld, feed (mkReader IN_QUOTED_FIELD fld fs) line
                         = Some (mkReader IN_QUOTED_FIELD (fld ++ line) fs)).
  { clear Hcur. induction Hline as [|c line Hc _ IH]; intros fld'; simpl.
    - by rewrite app_nil_r.
    - unfold process_char; simpl. rewrite (proj2 (N.eqb_neq c 34)) by done.
      unfold parse_add_char; simpl. rewrite IH. by rewrite <-app_assoc. }
  rewrite Hfeed. reflexivity.
Qed.

(** One character of the content, other than a CR that an LF follows. *)
Lemma quoted_step x rd0 cur fld fs :
  feed rd0 cur = Some (mkReader IN_QUOTED_FIELD fld fs) →
  ∃ rd0' cur',
    feed rd0' cur' = Some (mkReader IN_QUOTED_FIELD (fld ++ [x]) fs)
    ∧ ∀ s out,
        (x = 13 → ∃ c s', s = c :: s' ∧ c ≠ 10) →
        resume rd0 cur (escape [x] ++ s) out = resume rd0' cur' s out.
Proof.
  intros Hcur. unfold escape. simpl.
  destruct (N.eqb_spec x 34) as [->|H34].
  - exists rd0, (cur ++ [34; 34]). split.
    + rewrite feed_app, Hcur. reflexivity.
    + intros s out _. simpl. rewrite !resume_plain by done.
      by rewrite <-app_assoc.
  - destruct (N.eqb_spec x 10) as [->|H10];
      [|destruct (N.eqb_spec x 13) as [->|H13]].
    + exists (mkReader IN_QUOTED_FIELD (fld ++ [10]) fs), []. split; [done|].
      intros s out _. simpl. rewrite resume_lf.
      apply end_line_in_quoted; [done | by repeat constructor].
    + exists (mkReader IN_QUOTED_FIELD (fld ++ [13]) fs), []. split; [done|].
      intros s out Hnext. destruct (Hnext eq_refl) as (c & s' & -> & Hc).
      simpl. rewrite resume_cr by done.
      apply end_line_in_quoted; [done | by repeat constructor].
    + exists rd0, (cur ++ [x]). split.
      * eapply feed_snoc; [done|]. unfold process_char; simpl.
        by rewrite (proj2 (N.eqb_neq x 34)).
      * intros s out _. simpl. by rewrite resume_plain.
Qed.

Lemma escape_cons x f : escape (x :: f) = escape [x] ++ escape f.
Proof. unfold escape. simpl. by rewrite app_nil_r. Qed.

Lemma escape_head_not_lf y f tail :
  y ≠ 10 → ∃ c s', escape (y :: f) ++ 34 :: tail = c :: s' ∧ c ≠ 10.
Proof.
  intros Hy. unfold escape. simpl.
  destruct (y =? 34); simpl; eexists _, _; split; try reflexivity; done.
Qed.

(** The content of a quoted field, up to the closing quote. *)
Lemma quoted_content f :
  ∀ rd0 cur fld fs,
    feed rd0 cur = Some (mkReader IN_QUOTED_FIELD fld fs) →
    ∃ rd0' cur',
      feed rd0' cur' = Some (mkReader IN_QUOTED_FIELD (fld ++ f) fs)
      ∧ ∀ tail out,
          resume rd0 cur (escape f ++ 34 :: tail) out
          = resume rd0' cur' (34 :: tail) out.
Proof.
  induction f as [|x|x y f IH1 IH2] using list_pair_ind;
    intros rd0 cur fld fs Hcur.
  - exists rd0, cur. by rewrite app_nil_r.
  - destruct (quoted_step x rd0 cur fld fs Hcur)
      as (rd0' & cur' & Hcur' & Hres).
    exists rd0', cur'. split; [done|]. intros tail out.
    rewrite <-Hres by (intros _; by eexists _, _).
    unfold escape. simpl. by rewrite app_nil_r.
  - destruct (decide (x = 13 ∧ y = 10)) as [[-> ->]|Hpair].
    + destruct (IH1 (mkReader IN_QUOTED_FIELD (fld ++ [13; 10]) fs) []
                  (fld ++ [13; 10]) fs eq_refl)
        as (rd0' & cur' & Hcur' & Hres).
      exists rd0', cur'. split; [by rewrite <-app_assoc in Hcur'|].
      intros tail out. rewrite <-Hres.
      change (escape (13 :: 10 :: f)) with (13 :: 10 :: escape f).
      rewrite <-!app_comm_cons, resume_crlf.
      apply end_line_in_quoted; [done | by repeat constructor].
    + destruct (quoted_step x rd0 cur fld fs Hcur)
        as (rd1 & cur1 & Hcur1 & Hres1).
      destruct (IH2 rd1 cur1 (fld ++ [x]) fs Hcur1)
        as (rd0' & cur' & Hcur' & Hres).
      exists rd0', cur'. split; [by rewrite <-app_assoc in Hcur'|].
      intros tail out. rewrite <-Hres, <-Hres1.
      * by rewrite (escape_cons x), <-app_assoc.
      * intros ->. apply escape_head_not_lf. intros ->. by apply Hpair.
Qed.

(** *** One field *)

Lemma special_false c :
  special c = false → c ≠ 44 ∧ c ≠ 34 ∧ c ≠ 13 ∧ c ≠ 10.
Proof.
  unfold special. intros Hs. repeat split; intros ->; discriminate Hs.
Qed.

Lemma existsb_special_false f :
  existsb special f = false → Forall (λ c, special c = false) f.
Proof.
  induction f as [|c f IH]; simpl; [done|].
  intros [Hc Hf]%orb_false_elim. constructor; auto.
Qed.

(** Characters of an unquoted field, after its first. *)
Lemma plain_content f :
  ∀ rd0 cur fld fs,
    feed rd0 cur = Some (mkReader IN_FIELD fld fs) →
    Forall (λ c, special c = false) f →
    feed rd0 (cur ++ f) = Some (mkReader IN_FIELD (fld ++ f) fs)
    ∧ ∀ s out, resume rd0 cur (f ++ s) out = resume rd0 (cur ++ f) s out.
Proof.
  induction f as [|c f IH]; intros rd0 cur fld fs Hcur Hf.
  - rewrite !app_nil_r. done.
  - apply Forall_cons in Hf as [Hc Hf].
    apply special_false in Hc as (H44 & H34 & H13 & H10).
    assert (Hc : feed rd0 (cur ++ [c])
                 = Some (mkReader IN_FIELD (fld ++ [c]) fs)).
    { eapply feed_snoc; [done|]. unfold process_char, is_newline; simpl.
      by rewrite (proj2 (N.eqb_neq c 10)), (proj2 (N.eqb_neq c 13)),
                 (proj2 (N.eqb_neq c 44)). }
    destruct (IH rd0 (cur ++ [c]) (fld ++ [c]) fs Hc Hf) as [Hfeed Hres].
    rewrite <-!app_assoc in Hfeed.
    split; [exact Hfeed|]. intros s out.
    rewrite <-app_comm_cons, resume_plain by done.
    rewrite Hres. by rewrite <-app_assoc.
Qed.

Lemma read_field_text f rd0 cur rd :
  feed rd0 cur = Some rd → field rd = [] →
  state rd = START_RECORD ∨ state rd = START_FIELD →
  ∃ rd0' cur' rd',
    feed rd0' cur' = Some rd' ∧ field_read rd rd' f
    ∧ ∀ s out, resume rd0 cur (write_field f ++ s) out
               = resume rd0' cur' s out.
Proof.
  intros Hcur Hfld Hst. destruct rd as [st fld fs]. simpl in *. subst fld.
  unfold write_field. destruct (existsb special f) eqn:Hsp.
  - assert (Hq : feed rd0 (cur ++ [34]) = Some (mkReader IN_QUOTED_FIELD [] fs)).
    { eapply feed_snoc; [done|]. by destruct Hst as [-> | ->]. }
    destruct (quoted_content f rd0 (cur ++ [34]) [] fs Hq)
      as (rd1 & cur1 & Hcur1 & Hres).
    exists rd1, (cur1 ++ [34]), (mkReader QUOTE_IN_QUOTED_FIELD f fs).
    split; [by eapply feed_snoc|]. split; [unfold field_read; simpl; tauto|].
    intros s out. simpl.
    rewrite resume_plain by done. rewrite <-app_assoc. simpl.
    rewrite Hres. by rewrite resume_plain.
  - apply existsb_special_false in Hsp. destruct f as [|c f].
    + exists rd0, cur, (mkReader st [] fs). split; [done|].
      split; [unfold field_read; simpl; tauto | done].
    + apply Forall_cons in Hsp as [Hc Hf].
      apply special_false in Hc as (H44 & H34 & H13 & H10).
      assert (Hc : feed rd0 (cur ++ [c]) = Some (mkReader IN_FIELD [c] fs)).
      { eapply feed_snoc; [done|].
        destruct Hst as [-> | ->]; unfold process_char, start_field, is_newline;
          simpl;
          by rewrite (proj2 (N.eqb_neq c 10)), (proj2 (N.eqb_neq c 13)),
                     (proj2 (N.eqb_neq c 44)), (proj2 (N.eqb_neq c 34)). }
      destruct (plain_content f rd0 (cur ++ [c]) [c] fs Hc Hf) as [Hfeed Hres].
      exists rd0, ((cur ++ [c]) ++ f), (mkReader IN_FIELD (c :: f) fs).
      split; [done|]. split; [unfold field_read; simpl; tauto|].
      intros s out. rewrite <-!app_comm_cons, resume_plain by done.
      apply Hres.
Qed.

(** A field and the delimiter after it. *)
Lemma read_field_comma f rd0 cur rd :
  feed rd0 cur = Some rd → field rd = [] →
  state rd = START_RECORD ∨ state rd = START_FIELD →
  ∃ rd0' cur',
    feed rd0' cur' = Some (mkReader START_FIELD [] (fields rd ++ [f]))
    ∧ ∀ s out, resume rd0 cur (write_field f ++ 44 :: s) out
               = resume rd0' cur' s out.
Proof.
  intros Hcur Hfld Hst.
  destruct (read_field_text f rd0 cur rd Hcur Hfld Hst)
    as (rd1 & cur1 & rd' & Hcur1 & (Hf & Hfs & Hst') & Hres).
  exists rd1, (cur1 ++ [44]). split.
  - eapply feed_snoc; [done|]. destruct rd' as [st' fld' fs']. simpl in *.
    subst fld' fs'.
    destruct Hst' as [-> | [-> | [-> ->]]]; [done | done |].
    by destruct Hst as [-> | ->].
  - intros s out. rewrite Hres. by rewrite resume_plain.
Qed.

(** The last field of a record and the line terminator. *)
Lemma read_field_last f rd0 cur fs :
  feed rd0 cur = Some (mkReader START_FIELD [] fs) →
  ∀ s out, resume rd0 cur (write_field f ++ 13 :: 10 :: s) out
           = resume parse_reset [] s (out ++ [fs ++ [f]]).
Proof.
  intros Hcur s out.
  destruct (read_field_text f rd0 cur _ Hcur eq_refl (or_intror eq_refl))
    as (rd1 & cur1 & rd' & Hcur1 & (Hf & Hfs & Hst') & Hres).
  rewrite Hres, resume_crlf. unfold end_line.
  rewrite feed_app, Hcur1. destruct rd' as [st' fld' fs']. simpl in *.
  subst fld' fs'.
  by destruct Hst' as [-> | [-> | [-> ->]]].
Qed.

(** *** One record, and the text *)

Lemma read_fields_rest flds :
  flds ≠ [] →
  ∀ rd0 cur fs,
    feed rd0 cur = Some (mkReader START_FIELD [] fs) →
    ∀ s out, resume rd0 cur (join_fields flds ++ 13 :: 10 :: s) out
             = resume parse_reset [] s (out ++ [fs ++ flds]).
Proof.
  induction flds as [|f flds IH]; [done|]. intros _ rd0 cur fs Hcur s out.
  destruct flds as [|g flds].
  - simpl. by apply read_field_last.
  - change (join_fields (f :: g :: flds))
      with (write_field f ++ [44] ++ join_fields (g :: flds)).
    destruct (read_field_comma f rd0 cur _ Hcur eq_refl (or_intror eq_refl))
      as (rd1 & cur1 & Hcur1 & Hres).
    rewrite <-!app_assoc. simpl. rewrite Hres.
    rewrite (IH ltac:(done) rd1 cur1 _ Hcur1). simpl.
    by rewrite <-app_assoc.
Qed.

Lemma read_record f g flds s out :
  resume parse_reset [] (writerow (f :: g :: flds) ++ s) out
  = resume parse_reset [] s (out ++ [f :: g :: flds]).
Proof.
  unfold writerow.
  change (join_fields (f :: g :: flds))
    with (write_field f ++ [44] ++ join_fields (g :: flds)).
  destruct (read_field_comma f parse_reset [] parse_reset eq_refl eq_refl
              (or_introl eq_refl)) as (rd1 & cur1 & Hcur1 & Hres).
  rewrite <-!app_assoc. simpl. rewrite Hres.
  by rewrite (read_fields_rest (g :: flds) ltac:(done) rd1 cur1 _ Hcur1).
Qed.

Lemma read_records recs out :
  Forall (λ flds, (2 ≤ length flds)%nat) recs →
  resume parse_reset [] (concat (map writerow recs)) out = Some (out ++ recs).
Proof.
  intros Hrecs. revert out.
  induction Hrecs as [|flds recs Hlen _ IH]; intros out.
  - simpl. by rewrite app_nil_r.
  - destruct flds as [|f [|g flds]]; simpl in Hlen; [lia | lia |].
    cbn [map concat]. rewrite read_record, IH. by rewrite <-app_assoc.
Qed.

End RoundTrip.

Lemma reader_resume text :
  Csv.reader text = resume Csv.parse_reset [] text [].
Proof. reflexivity. Qed.

Lemma csv_text_records rows :
  csv_text rows = concat (map Csv.writerow (keys :: map row_fields rows)).
Proof. unfold csv_text. cbn [map concat]. by rewrite map_map. Qed.

Lemma reader_csv_text rows :
  Csv.reader (csv_text rows) = Some (keys :: map row_fields rows).
Proof.
  rewrite reader_resume, csv_text_records.
  rewrite read_records; [done|].
  constructor; [unfold keys; simpl; lia|]. apply Forall_fmap, Forall_forall.
  intros r _. simpl. lia.
Qed.

Lemma rows_of_fields rows : mapM row_of_fields (map row_fields rows) = Some rows.
Proof.
  induction rows as [|[c b m u] rows IH]; [done|].
  cbn [map]. change (mapM row_of_fields (?x :: ?l))
    with (y ← row_of_fields x; k ← mapM row_of_fields l; mret (y :: k)).
  rewrite IH. reflexivity.
Qed.

(** C8. The text written for [rows] is the header line
    [category,brand,model,source_url] followed by one record for each row,
    in order; the reader gives back the header and [length rows] records,
    whose fields are those of the rows, in order; and reading the export
    back into rows gives [rows]. [save_to_csv] writes that text, and
    [run_all] calls it on the rows left by the global pass. *)
Theorem csv_round_trip `{PyRuntime} (rows : list Row) :
  csv_text rows
  = py "category,brand,model,source_url" ++ [13; 10]
    ++ concat (map (λ r, Csv.writerow (row_fields r)) rows)
  ∧ Csv.reader (csv_text rows) = Some (keys :: map row_fields rows)
  ∧ length (map row_fields rows) = length rows
  ∧ parse_csv (csv_text rows) = Some rows
  ∧ (∀ filename,
       save_to_csv rows filename
       = ([WriteFile (py "output_products/" ++ filename) (csv_text rows);
           Print (MsgSaved (length rows) (py "output_products/" ++ filename))],
          Some (py "output_products/" ++ filename)))
  ∧ (∀ w use_selenium, ∃ ev rows_all,
       gather w use_selenium = (ev, Some rows_all)
       ∧ WriteFile (py "output_products/all_products_" ++ utcnow w ++ py ".csv")
                   (csv_text (dedupe_global rows_all))
         ∈ (run_all w use_selenium).1).
Proof.
  split; [reflexivity|]. split; [apply reader_csv_text|].
  split; [apply length_map|]. split.
  - unfold parse_csv. rewrite reader_csv_text.
    rewrite decide_True by done. apply rows_of_fields.
  - split; [reflexivity|]. intros w use_selenium.
    eexists _, _. split; [apply gather_spec|].
    unfold run_all. rewrite gather_spec. rewrite bind_unfold, bind_some.
    cbn [fst]. apply elem_of_app. right.
    unfold save_to_csv. rewrite !bind_unfold. unfold emit at 1.
    rewrite bind_assoc, bind_some. cbn [fst app]. left.
Qed.

(** * Further properties of the program *)

(** ** [clean_text] *)

(** What a [strip] removes: a block of stripped characters on each side. *)
Lemma lstrip_by_decomp p s :
  ∃ pre, s = pre ++ Str.lstrip_by p s ∧ Forall (λ c, p c = true) pre.
Proof.
  induction s as [|c s (pre & Hs & Hpre)]; simpl.
  - by exists [].
  - destruct (p c) eqn:Hc.
    + exists (c :: pre). split; [by rewrite <-app_comm_cons, <-Hs|].
      by constructor.
    + by exists [].
Qed.

Lemma rstrip_by_decomp p s :
  ∃ suf, s = Str.rstrip_by p s ++ suf ∧ Forall (λ c, p c = true) suf.
Proof.
  unfold Str.rstrip_by.
  destruct (lstrip_by_decomp p (rev s)) as (pre & Hs & Hpre).
  exists (rev pre). split.
  - rewrite <-rev_app_distr, <-Hs. by rewrite rev_involutive.
  - rewrite Forall_forall in *. intros c Hc. apply Hpre.
    by apply list_elem_of_In, in_rev, list_elem_of_In.
Qed.

Lemma lstrip_by_head_false p s c s' :
  Str.lstrip_by p s = c :: s' → p c = false.
Proof.
  induction s as [|a s IH]; simpl; [done|].
  destruct (p a) eqn:Ha; [done|]. by intros [= <- <-].
Qed.

Lemma rstrip_by_last_false p s s' c :
  Str.rstrip_by p s = s' ++ [c] → p c = false.
Proof.
  unfold Str.rstrip_by. intros Hs.
  apply (f_equal (@rev N)) in Hs. rewrite rev_involutive, rev_app_distr in Hs.
  by apply lstrip_by_head_false in Hs.
Qed.

Lemma strip_by_head_false p s c s' :
  Str.strip_by p s = c :: s' → p c = false.
Proof.
  unfold Str.strip_by. intros Hs.
  destruct (rstrip_by_decomp p (Str.lstrip_by p s)) as (suf & Hl & _).
  rewrite Hs in Hl. by apply lstrip_by_head_false in Hl.
Qed.

Lemma sub_runs_single_spaced b s :
  single_spaced b (Str.sub_runs_from Str.isspace 32 b s).
Proof.
  revert b. induction s as [|c s IH]; intros b; simpl; [done|].
  destruct (Str.isspace c) eqn:Hc.
  - destruct b; [apply IH|]. simpl. split; [done|]. split; [done | apply IH].
  - simpl. rewrite Hc. apply IH.
Qed.

Lemma single_spaced_fixed b t :
  single_spaced b t → Str.sub_runs_from Str.isspace 32 b t = t.
Proof.
  revert b. induction t as [|c t IH]; intros b; simpl; [done|].
  destruct (Str.isspace c) eqn:Hc.
  - intros (-> & -> & Ht). by rewrite IH.
  - intros Ht. by rewrite IH.
Qed.

Lemma single_spaced_weaken b t : single_spaced b t → single_spaced false t.
Proof.
  destruct t as [|c t]; simpl; [done|].
  destruct (Str.isspace c); [|done]. tauto.
Qed.

Lemma single_spaced_app_l b t1 t2 :
  single_spaced b (t1 ++ t2) → single_spaced b t1.
Proof.
  revert b. induction t1 as [|c t1 IH]; intros b; simpl; [done|].
  destruct (Str.isspace c); [|apply IH].
  intros (Hb & Hc & Ht). repeat split; try done. by apply IH.
Qed.

Lemma single_spaced_app_r b t1 t2 :
  single_spaced b (t1 ++ t2) → single_spaced false t2.
Proof.
  revert b. induction t1 as [|c t1 IH]; intros b; simpl.
  - apply single_spaced_weaken.
  - destruct (Str.isspace c); [|apply IH]. intros (_ & _ & Ht). by eapply IH.
Qed.

Lemma clean_text_single_spaced s : single_spaced false (clean_text s).
Proof.
  destruct s as [s|]; simpl; [|done].
  unfold Str.strip, Str.strip_by, Str.collapse_ws, Str.sub_runs.
  pose proof (sub_runs_single_spaced false s) as Hs.
  destruct (lstrip_by_decomp Str.isspace (Str.sub_runs_from Str.isspace 32 false s))
    as (pre & Hl & _).
  destruct (rstrip_by_decomp Str.isspace
              (Str.lstrip_by Str.isspace (Str.sub_runs_from Str.isspace 32 false s)))
    as (suf & Hr & _).
  rewrite Hl in Hs. apply single_spaced_app_r in Hs.
  rewrite Hr in Hs. by apply single_spaced_app_l in Hs.
Qed.

Lemma single_spaced_no_double b pre post :
  ¬ single_spaced b (pre ++ 32 :: 32 :: post).
Proof.
  revert b. induction pre as [|c pre IH]; intros b; simpl.
  - by intros (_ & _ & [=] & _).
  - destruct (Str.isspace c); [|apply IH]. intros (_ & _ & Ht). by eapply IH.
Qed.

Lemma single_spaced_space b t c :
  single_spaced b t → c ∈ t → Str.isspace c = true → c = 32.
Proof.
  revert b. induction t as [|a t IH]; intros b Ht Hin Hc;
    [by apply elem_of_nil in Hin|].
  simpl in Ht. apply elem_of_cons in Hin as [->|Hin].
  - rewrite Hc in Ht. tauto.
  - destruct (Str.isspace a); [destruct Ht as (_ & _ & Ht)|]; by eapply IH.
Qed.

(** X1. Cleaning a cleaned text changes nothing. *)
Theorem clean_text_idempotent (s : option pystr) :
  clean_text (Some (clean_text s)) = clean_text s.
Proof.
  simpl. unfold Str.collapse_ws, Str.sub_runs.
  rewrite single_spaced_fixed by apply clean_text_single_spaced.
  apply clean_text_trimmed.
Qed.

(** X2. A cleaned text neither starts nor ends with whitespace, its only
    whitespace character is SPACE, and it has no two SPACEs in a row. *)
Theorem clean_text_shape (s : option pystr) :
  (∀ c t, clean_text s = c :: t → Str.isspace c = false)
  ∧ (∀ t c, clean_text s = t ++ [c] → Str.isspace c = false)
  ∧ (∀ c, c ∈ clean_text s → Str.isspace c = true → c = 32)
  ∧ (∀ pre post, clean_text s ≠ pre ++ [32; 32] ++ post).
Proof.
  split; [|split; [|split]].
  - destruct s as [s|]; simpl; [|done]. intros c t. apply strip_by_head_false.
  - destruct s as [s|]; simpl; [|by intros [|??] ?].
    intros t c. apply rstrip_by_last_false.
  - intros c. apply (single_spaced_space false), clean_text_single_spaced.
  - intros pre post Heq. apply (single_spaced_no_double false pre post).
    simpl in Heq. rewrite <-Heq. apply clean_text_single_spaced.
Qed.

Lemma sub_runs_nonspace b s :
  filter (λ c, Str.isspace c = false) (Str.sub_runs_from Str.isspace 32 b s)
  = filter (λ c, Str.isspace c = false) s.
Proof.
  revert b. induction s as [|c s IH]; intros b; simpl; [done|].
  destruct (Str.isspace c) eqn:Hc.
  - rewrite (filter_cons_False _ c) by (by rewrite Hc).
    destruct b; [apply IH|]. rewrite filter_cons_False by done. apply IH.
  - rewrite !filter_cons_True by done. by rewrite IH.
Qed.

Lemma filter_nonspace_spaces (l : pystr) :
  Forall (λ c, Str.isspace c = true) l →
  filter (λ c, Str.isspace c = false) l = [].
Proof.
  induction 1 as [|c l Hc _ IH]; [done|].
  rewrite filter_cons_False by (by rewrite Hc). done.
Qed.

Lemma strip_nonspace s :
  filter (λ c, Str.isspace c = false) (Str.strip s)
  = filter (λ c, Str.isspace c = false) s.
Proof.
  unfold Str.strip, Str.strip_by.
  destruct (lstrip_by_decomp Str.isspace s) as (pre & Hl & Hpre).
  destruct (rstrip_by_decomp Str.isspace (Str.lstrip_by Str.isspace s))
    as (suf & Hr & Hsuf).
  apply (f_equal (filter (λ c, Str.isspace c = false))) in Hl, Hr.
  rewrite filter_app, (filter_nonspace_spaces pre) in Hl by done.
  rewrite filter_app, (filter_nonspace_spaces suf), app_nil_r in Hr by done.
  simpl in Hl. congruence.
Qed.

(** X3. Cleaning keeps the characters that are not whitespace, in their
    order, and drops nothing else; so the result is empty exactly when the
    text has only whitespace, and it is never longer than the text. *)
Theorem clean_text_keeps_nonspace (s : pystr) :
  filter (λ c, Str.isspace c = false) (clean_text (Some s))
  = filter (λ c, Str.isspace c = false) s
  ∧ (clean_text (Some s) = [] ↔ Forall (λ c, Str.isspace c = true) s)
  ∧ (length (clean_text (Some s)) ≤ length s)%nat.
Proof.
  assert (Hkeep : filter (λ c, Str.isspace c = false) (clean_text (Some s))
                  = filter (λ c, Str.isspace c = false) s).
  { simpl. rewrite strip_nonspace. apply sub_runs_nonspace. }
  split; [done|]. split; [split|].
  - intros Hnil. rewrite Hnil in Hkeep.
    apply Forall_forall. intros c Hc.
    destruct (Str.isspace c) eqn:Hsp; [done|].
    assert (Hin : c ∈ filter (λ c, Str.isspace c = false) s)
      by (by apply list_elem_of_filter).
    rewrite <-Hkeep in Hin. by apply elem_of_nil in Hin.
  - intros Hall. rewrite (filter_nonspace_spaces s) in Hkeep by done.
    destruct (clean_text (Some s)) as [|c t] eqn:Ht; [done|].
    assert (Hc : Str.isspace c = false).
    { simpl in Ht. by apply strip_by_head_false in Ht. }
    rewrite filter_cons_True in Hkeep by done. done.
  - simpl. unfold Str.strip, Str.strip_by, Str.collapse_ws, Str.sub_runs.
    assert (Hsub : ∀ b t, (length (Str.sub_runs_from Str.isspace 32 b t)
                           ≤ length t)%nat).
    { intros b t. revert b. induction t as [|c t IH]; intros b; simpl; [lia|].
      pose proof (IH true). pose proof (IH false).
      destruct (Str.isspace c); [destruct b|]; simpl; lia. }
    destruct (lstrip_by_decomp Str.isspace (Str.sub_runs_from Str.isspace 32 false s))
      as (pre & Hl & _).
    destruct (rstrip_by_decomp Str.isspace
                (Str.lstrip_by Str.isspace (Str.sub_runs_from Str.isspace 32 false s)))
      as (suf & Hr & _).
    apply (f_equal length) in Hl, Hr. rewrite length_app in Hl, Hr.
    specialize (Hsub false s). lia.
Qed.

(** ** More on the two passes *)

Section DedupeMore.
Variable key : Row → Key.

Lemma dedupe_loop_sublist seen rows :
  dedupe_loop key seen [] rows `sublist_of` rows.
Proof.
  revert seen. induction rows as [|r rows IH]; intros seen; [done|].
  destruct (decide (key r ∈ seen)).
  - rewrite dedupe_loop_cons_seen by done. by apply sublist_cons.
  - rewrite dedupe_loop_cons_new by done. by apply sublist_skip.
Qed.

Lemma dedupe_loop_key_set seen rows k :
  k ∈ key <$> dedupe_loop key seen [] rows ↔ k ∈ key <$> rows ∧ k ∉ seen.
Proof.
  revert seen. induction rows as [|r rows IH]; intros seen.
  - simpl. split; [by intros ?%elem_of_nil | by intros [?%elem_of_nil _]].
  - destruct (decide (key r ∈ seen)).
    + rewrite dedupe_loop_cons_seen by done. rewrite IH, fmap_cons, elem_of_cons.
      split; [tauto|]. intros [[->|?] ?]; tauto.
    + rewrite dedupe_loop_cons_new by done.
      rewrite !fmap_cons, !elem_of_cons, IH.
      rewrite not_elem_of_union, elem_of_singleton.
      destruct (decide (k = key r)) as [->|]; tauto.
Qed.

Lemma dedupe_loop_map (f : Row → Row) seen unique rows :
  (∀ r, key (f r) = key r) →
  dedupe_loop key seen (f <$> unique) (f <$> rows)
  = f <$> dedupe_loop key seen unique rows.
Proof.
  intros Hf. revert seen unique.
  induction rows as [|r rows IH]; intros seen unique; [done|].
  rewrite fmap_cons. simpl. rewrite Hf.
  destruct (decide (key r ∈ seen)); [apply IH|].
  rewrite <-IH. by rewrite fmap_app.
Qed.

End DedupeMore.

(** A pass with a finer key before a pass with a coarser key changes
    nothing: [key2] is a function of [key1] on the rows [a]. *)
Lemma dedupe_loop_coarser key1 key2 a b :
  ∀ seen1 seen2,
    (∀ r r', r ∈ a → r' ∈ a → key1 r = key1 r' → key2 r = key2 r') →
    (∀ r, r ∈ a → key1 r ∈ seen1 → key2 r ∈ seen2) →
    dedupe_loop key2 seen2 [] (dedupe_loop key1 seen1 [] a ++ b)
    = dedupe_loop key2 seen2 [] (a ++ b).
Proof.
  induction a as [|r a IH]; intros seen1 seen2 Hco Hseen; [done|].
  assert (Hco' : ∀ r0 r', r0 ∈ a → r' ∈ a → key1 r0 = key1 r' → key2 r0 = key2 r').
  { intros r0 r' H0 H'. apply Hco; by right. }
  destruct (decide (key1 r ∈ seen1)) as [Hin1|Hnew1].
  - rewrite (dedupe_loop_cons_seen key1) by done.
    rewrite <-app_comm_cons, (dedupe_loop_cons_seen key2)
      by (apply Hseen; [by left | done]).
    apply IH; [done|]. intros r0 H0. apply Hseen. by right.
  - rewrite (dedupe_loop_cons_new key1) by done. rewrite <-!app_comm_cons.
    destruct (decide (key2 r ∈ seen2)) as [Hin2|Hnew2].
    + rewrite !(dedupe_loop_cons_seen key2) by done.
      apply IH; [done|]. intros r0 H0 [Heq%elem_of_singleton|Hs]%elem_of_union.
      * rewrite (Hco r0 r); [done | by right | by left | done].
      * apply Hseen; [by right | done].
    + rewrite !(dedupe_loop_cons_new key2) by done. f_equal.
      apply IH; [done|]. intros r0 H0 [Heq%elem_of_singleton|Hs]%elem_of_union.
      * rewrite (Hco r0 r); [set_solver | by right | by left | done].
      * apply elem_of_union. right. apply Hseen; [by right | done].
Qed.

Lemma dedupe_by_coarser key1 key2 a b :
  (∀ r r', r ∈ a → r' ∈ a → key1 r = key1 r' → key2 r = key2 r') →
  (∀ r r', r ∈ b → r' ∈ b → key1 r = key1 r' → key2 r = key2 r') →
  dedupe_by key2 (dedupe_by key1 a ++ dedupe_by key1 b) = dedupe_by key2 (a ++ b).
Proof.
  intros Ha Hb. unfold dedupe_by.
  rewrite (dedupe_loop_coarser key1 key2 a) by (done || set_solver).
  destruct (dedupe_loop_app key2 ∅ [] a) as (s' & u' & Hrun & _).
  rewrite !Hrun. rewrite (dedupe_loop_acc key2 s' u' b).
  rewrite (dedupe_loop_acc key2 s' u'). f_equal.
  pose proof (dedupe_loop_coarser key1 key2 b [] ∅ s' Hb) as Hc.
  rewrite !app_nil_r in Hc. apply Hc. set_solver.
Qed.

Lemma local_key_global_key `{PyRuntime} r r' :
  trimmed_row r → trimmed_row r' →
  local_key r = local_key r' → global_key r = global_key r'.
Proof.
  intros [Hb Hm] [Hb' Hm'] [= Hkb Hkm]. unfold global_key.
  by rewrite Hb, Hm, Hb', Hm', Hkb, Hkm.
Qed.

(** X4. Each pass returns a subsequence of its input in which no two rows
    share a key and every key of the input is still present. *)
Theorem dedupe_invariants `{PyRuntime} (rows : list Row) :
  (dedupe_local rows `sublist_of` rows
   ∧ NoDup (local_key <$> dedupe_local rows)
   ∧ ∀ k, k ∈ local_key <$> dedupe_local rows ↔ k ∈ local_key <$> rows)
  ∧ (dedupe_global rows `sublist_of` rows
     ∧ NoDup (global_key <$> dedupe_global rows)
     ∧ ∀ k, k ∈ global_key <$> dedupe_global rows ↔ k ∈ global_key <$> rows).
Proof.
  split; (split; [apply dedupe_loop_sublist|];
          split; [apply dedupe_loop_keys|]); intros k;
    unfold dedupe_local, dedupe_global, dedupe_by;
    rewrite dedupe_loop_key_set; set_solver.
Qed.

(** X5. On trimmed rows the adapter-local passes do not change what the
    global pass returns: the global pass of the locally deduplicated lists
    is the global pass of the lists. *)
Theorem local_pass_is_redundant `{PyRuntime} (a b : list Row) :
  Forall trimmed_row a → Forall trimmed_row b →
  dedupe_global (dedupe_local a ++ dedupe_local b) = dedupe_global (a ++ b)
  ∧ dedupe_global (dedupe_local a) = dedupe_global a.
Proof.
  intros Ha Hb. rewrite Forall_forall in Ha, Hb.
  assert (Hco : ∀ l : list Row, (∀ r, r ∈ l → trimmed_row r) →
            ∀ r r', r ∈ l → r' ∈ l →
                    local_key r = local_key r' → global_key r = global_key r').
  { intros l Hl r r' Hr Hr'. apply local_key_global_key; by apply Hl. }
  split.
  - apply dedupe_by_coarser; by apply Hco.
  - pose proof (dedupe_by_coarser local_key global_key a [] (Hco a Ha)) as Hc.
    unfold dedupe_local, dedupe_global. change (dedupe_by local_key []) with (@nil Row) in Hc.
    rewrite !app_nil_r in Hc. apply Hc. by intros ?? ?%elem_of_nil.
Qed.

Lemma local_pass_is_redundant_witness :
  Forall trimmed_row example_rows
  ∧ @dedupe_global example_runtime (@dedupe_local example_runtime example_rows)
    = @dedupe_global example_runtime example_rows.
Proof.
  assert (Ht : Forall trimmed_row example_rows).
  { repeat (constructor; [split; reflexivity|]). constructor. }
  split; [exact Ht|].
  exact (proj2 (@local_pass_is_redundant example_runtime example_rows []
                  Ht (List.Forall_nil _))).
Defined.

(** X6. Classification and deduplication commute: the category is not
    part of either key, so assigning the categories before or after a pass
    gives the same rows. *)
Theorem classify_commutes_with_dedupe `{PyRuntime} (rows : list Row) :
  assign_categories (dedupe_local rows) = dedupe_local (assign_categories rows)
  ∧ assign_categories (dedupe_global rows) = dedupe_global (assign_categories rows).
Proof.
  unfold assign_categories, dedupe_local, dedupe_global, dedupe_by.
  split; symmetry;
    apply (dedupe_loop_map _ (λ r, set_category (classify (model r)) r) _ []);
    by intros [].
Qed.

(** ** Computations that return, and what their traces hold *)

Lemma returns_ret {A} (a : A) : returns (ret a).
Proof. by eexists. Qed.

Lemma returns_bind {A B} (m : M A) (k : A → M B) :
  returns m → (∀ a, returns (k a)) → returns (m ≫= k).
Proof.
  intros [a Ha] Hk. rewrite bind_unfold. destruct m as [ev [a'|]]; [|done].
  unfold returns. rewrite bind_some. apply Hk.
Qed.

Lemma returns_emit (e : Event) : returns (emit e).
Proof. by eexists. Qed.

Lemma returns_try {A} (m handler : M A) :
  returns handler → returns (try_except m handler).
Proof.
  intros [a Ha]. destruct m as [ev [a'|]]; simpl; [by eexists|].
  destruct handler as [ev' b]. simpl in *. by eexists.
Qed.

Lemma returns_for_each {A S} (xs : list A) (st : S) (body : S → A → M S) :
  (∀ st x, returns (body st x)) → returns (for_each xs st body).
Proof.
  intros Hbody. revert st. induction xs as [|x xs IH]; intros st.
  - apply returns_ret.
  - simpl. apply returns_bind; [apply Hbody | apply IH].
Qed.

Lemma bind_raises {A B} (m : M A) (k : A → M B) :
  m.2 = None → (m ≫= k).2 = None.
Proof. rewrite bind_unfold. destruct m as [ev [a|]]; [done|]. done. Qed.

Lemma bind_snd {A B} (m : M A) (k : A → M B) a :
  m.2 = Some a → (m ≫= k).2 = (k a).2.
Proof.
  rewrite bind_unfold. destruct m as [ev [a'|]]; [|done].
  intros [= ->]. by rewrite bind_some.
Qed.

Section Traces.
Variable P : Event → Prop.

Lemma trace_ret {A} (a : A) : trace P (ret a).
Proof. constructor. Qed.

Lemma trace_raise {A} : trace P (@raise A).
Proof. constructor. Qed.

Lemma trace_emit (e : Event) : P e → trace P (emit e).
Proof. intros He. by repeat constructor. Qed.

Lemma trace_bind {A B} (m : M A) (k : A → M B) :
  trace P m → (∀ a, trace P (k a)) → trace P (m ≫= k).
Proof.
  intros Hm Hk. rewrite bind_unfold. unfold trace in *.
  destruct m as [ev [a|]]; [|done].
  rewrite bind_some. apply Forall_app. split; [done | apply Hk].
Qed.

Lemma trace_try {A} (m handler : M A) :
  trace P m → trace P handler → trace P (try_except m handler).
Proof.
  unfold trace. intros Hm Hh. destruct m as [ev [a|]]; simpl; [done|].
  destruct handler as [ev' b]. simpl in *. apply Forall_app. by split.
Qed.

Lemma trace_for_each {A S} (xs : list A) (st : S) (body : S → A → M S) :
  (∀ st x, trace P (body st x)) → trace P (for_each xs st body).
Proof.
  intros Hbody. revert st. induction xs as [|x xs IH]; intros st.
  - apply trace_ret.
  - simpl. apply trace_bind; [apply Hbody | apply IH].
Qed.

End Traces.

(** ** When an adapter fails *)

Section Failures.
Context `{PyRuntime} (w : World).

Lemma get_answer url s :
  http_get w url = Some s → get w url = ([HttpGet url], Some s).
Proof. intros Hs. unfold get. by rewrite Hs. Qed.

Lemma get_failure url :
  http_get w url = None → get w url = ([HttpGet url], None).
Proof. intros Hs. unfold get. by rewrite Hs. Qed.

Lemma returns_print m : returns (print m).
Proof. by eexists. Qed.

Lemma fetch_mimosa_returns s :
  http_get w (py "https://mimosa.co/products") = Some s →
  returns (fetch_mimosa w).
Proof.
  intros Hs. unfold fetch_mimosa.
  apply returns_bind; [apply returns_print|]. intros _.
  change (mimosa_base ++ py "/products") with (py "https://mimosa.co/products").
  rewrite (get_answer _ _ Hs).
  apply returns_bind; [by eexists|]. intros s'.
  apply returns_bind.
  - apply returns_for_each. intros rows cat. apply returns_try, returns_ret.
  - intros rows. apply returns_bind; [apply returns_print|].
    intros _. apply returns_ret.
Qed.

Lemma fetch_mimosa_raises :
  http_get w (py "https://mimosa.co/products") = None →
  (fetch_mimosa w).2 = None.
Proof.
  intros Hs. unfold fetch_mimosa.
  rewrite (bind_snd _ _ tt) by done.
  apply bind_raises.
  change (mimosa_base ++ py "/products") with (py "https://mimosa.co/products").
  by rewrite (get_failure _ Hs).
Qed.

Lemma fetch_cambium_returns s :
  http_get w (py "https://www.cambiumnetworks.com/products/") = Some s →
  returns (fetch_cambium w).
Proof.
  intros Hs. unfold fetch_cambium.
  apply returns_bind; [apply returns_print|]. intros _.
  change (cambium_base ++ py "/products/")
    with (py "https://www.cambiumnetworks.com/products/").
  rewrite (get_answer _ _ Hs).
  apply returns_bind; [by eexists|]. intros s'.
  apply returns_bind.
  - apply returns_try, returns_ret.
  - intros rows. apply returns_bind; [apply returns_print|].
    intros _. apply returns_ret.
Qed.

Lemma fetch_cambium_raises :
  http_get w (py "https://www.cambiumnetworks.com/products/") = None →
  (fetch_cambium w).2 = None.
Proof.
  intros Hs. unfold fetch_cambium.
  rewrite (bind_snd _ _ tt) by done.
  apply bind_raises.
  change (cambium_base ++ py "/products/")
    with (py "https://www.cambiumnetworks.com/products/").
  by rewrite (get_failure _ Hs).
Qed.

Lemma fetch_mikrotik_raises :
  http_get w (py "https://mikrotik.com/products") = None →
  (fetch_mikrotik w).2 = None.
Proof.
  intros Hs. unfold fetch_mikrotik.
  rewrite (bind_snd _ _ tt) by done.
  apply bind_raises.
  change (mikrotik_base ++ py "/products") with (py "https://mikrotik.com/products").
  by rewrite (get_failure _ Hs).
Qed.

Lemma fetch_ubiquiti_returns use_selenium driver :
  returns (fetch_ubiquiti w use_selenium driver).
Proof.
  unfold fetch_ubiquiti. apply returns_bind.
  - apply returns_for_each. intros [rows tried] url.
    destruct (decide (url ∈ tried)); [apply returns_ret|].
    apply returns_try, returns_bind; [apply returns_print|].
    intros _. apply returns_ret.
  - intros st. apply returns_bind; [apply returns_print|].
    intros _. apply returns_ret.
Qed.

Lemma run_ubiquiti_result use_selenium :
  (run_ubiquiti w use_selenium).2 = None
  ↔ use_selenium && SELENIUM_OK w && negb (chrome_starts w) = true.
Proof.
  unfold run_ubiquiti.
  destruct (use_selenium && SELENIUM_OK w).
  - rewrite (bind_snd _ _ tt) by done.
    destruct (chrome_starts w).
    + rewrite (bind_snd _ _ tt) by done.
      destruct (fetch_ubiquiti_returns true true) as [ub Hub].
      rewrite (bind_snd _ _ ub) by done.
      rewrite (bind_snd _ _ tt) by done. done.
    + split; [done|]. intros _. by apply bind_raises.
  - destruct (fetch_ubiquiti_returns false false) as [ub Hub]. by rewrite Hub.
Qed.

End Failures.

Lemma not_None_returns {A} (m : M A) : m.2 = None ↔ ¬ returns m.
Proof.
  destruct m as [ev [a|]]; unfold returns; simpl; split.
  - done.
  - intros Hn. destruct Hn. by eexists.
  - intros _ [? [=]].
  - done.
Qed.

(** X7. An adapter raises exactly when its one required page cannot be
    fetched: the start page for MikroTik, Mimosa and Cambium. The Ubiquiti
    adapter never raises; its block in [run_all] raises only when the
    browser was asked for, selenium is installed, and Chrome does not
    start. *)
Theorem adapter_fails_iff_start_page_fails `{PyRuntime} (w : World)
    (use_selenium driver : bool) :
  ((fetch_mikrotik w).2 = None
   ↔ http_get w (py "https://mikrotik.com/products") = None)
  ∧ ((fetch_mimosa w).2 = None
     ↔ http_get w (py "https://mimosa.co/products") = None)
  ∧ ((fetch_cambium w).2 = None
     ↔ http_get w (py "https://www.cambiumnetworks.com/products/") = None)
  ∧ (fetch_ubiquiti w use_selenium driver).2 ≠ None
  ∧ ((run_ubiquiti w use_selenium).2 = None
     ↔ use_selenium && SELENIUM_OK w && negb (chrome_starts w) = true).
Proof.
  split; [|split; [|split; [|split]]].
  - split; [|apply fetch_mikrotik_raises].
    destruct (http_get w _) as [soup|] eqn:Hs; [|done].
    by rewrite (fetch_mikrotik_spec w soup Hs).
  - split; [|apply fetch_mimosa_raises].
    destruct (http_get w _) as [s|] eqn:Hs; [|done].
    intros Hn. apply not_None_returns in Hn. destruct Hn.
    by eapply fetch_mimosa_returns.
  - split; [|apply fetch_cambium_raises].
    destruct (http_get w _) as [s|] eqn:Hs; [|done].
    intros Hn. apply not_None_returns in Hn. destruct Hn.
    by eapply fetch_cambium_returns.
  - intros Hn. apply not_None_returns in Hn. apply Hn, fetch_ubiquiti_returns.
  - apply run_ubiquiti_result.
Qed.

(** ** The exit status, in general *)

Section ExitStatus.
Context `{PyRuntime} (w : World).

(** What [run_all] does after the adapters, lines 355-383. *)
Lemma run_all_unfold use_selenium ev rows_all :
  gather w use_selenium = (ev, Some rows_all) →
  run_all w use_selenium
  = bind (ev, Some rows_all) (λ rows_all,
      let unique := dedupe_global rows_all in
      let ts := utcnow w in
      let filename := py "all_products_" ++ ts ++ py ".csv" in
      path ← save_to_csv unique filename;
      groups ← groupby_brand unique;
      for_each groups tt (λ _ bg,
        let bn := brand_file_stem bg.1 in
        let subpath := OUTPUT_DIR ++ py "/" ++ bn ++ py "_" ++ ts ++ py ".csv" in
        emit (WriteBrandCsv subpath bg.2);;
        print (MsgSavedBrand subpath));;
      print (MsgDone (length unique));;
      ret path).
Proof. intros Hg. unfold run_all. by rewrite Hg. Qed.

Lemma dedupe_global_nil_iff rows : dedupe_global rows = [] ↔ rows = [].
Proof.
  split; [|by intros ->]. destruct rows as [|r rows]; [done|].
  unfold dedupe_global. destruct (dedupe_by_head global_key r rows) as [rest ->].
  done.
Qed.

Lemma run_all_raises_iff use_selenium :
  (run_all w use_selenium).2 = None ↔ contribution (gather w use_selenium) = [].
Proof.
  pose proof (gather_spec w use_selenium) as Hg.
  set (rows_all := contribution (fetch_mikrotik w) ++ _) in Hg.
  set (ev := adapter_log MikroTik _ ++ _) in Hg.
  rewrite (run_all_unfold use_selenium _ _ Hg), Hg.
  change (contribution (ev, Some rows_all)) with rows_all.
  rewrite bind_some. cbn [snd].
  rewrite <-dedupe_global_nil_iff.
  destruct (dedupe_global rows_all) as [|r unique] eqn:Hu.
  - split; [done|]. intros _. reflexivity.
  - split; [|done]. intros Hn. apply not_None_returns in Hn. destruct Hn.
    apply returns_bind.
    { unfold save_to_csv. apply returns_bind; [apply returns_emit|].
      intros _. apply returns_bind; [apply returns_print | intros; apply returns_ret]. }
    intros path. apply returns_bind; [by eexists|]. intros groups.
    apply returns_bind.
    { apply returns_for_each. intros [] bg.
      apply returns_bind; [apply returns_emit | intros; apply returns_print]. }
    intros _. apply returns_bind; [apply returns_print | intros; apply returns_ret].
Qed.

End ExitStatus.

(** X8. The exit status in full: the process ends with status 1 exactly
    when the browser was asked for without selenium installed, or when the
    adapters gathered no row at all (the grouping by brand then raises
    after the main CSV is written); otherwise it ends with status 0. *)
Theorem exit_status `{PyRuntime} (w : World) (use_selenium : bool) :
  (main w use_selenium).2
  = if (use_selenium && negb (SELENIUM_OK w))
       || bool_decide (contribution (gather w use_selenium) = [])
    then 1 else 0.
Proof.
  unfold main. destruct (use_selenium && negb (SELENIUM_OK w)); [done|].
  cbn [orb]. pose proof (run_all_raises_iff w use_selenium) as Hiff.
  destruct (run_all w use_selenium) as [ev [path|]]; simpl in *.
  - rewrite bool_decide_eq_false_2; [done|]. intros Hnil. by apply Hiff in Hnil.
  - rewrite bool_decide_eq_true_2; [done|]. by apply Hiff.
Qed.

(** ** What the traces hold *)

Section AdapterTraces.
Context `{PyRuntime} (w : World) (P : Event → Prop).
Hypothesis P_get : ∀ url, P (HttpGet url).
Hypothesis P_print : ∀ m, P (Print m).

Lemma trace_get url : trace P (get w url).
Proof.
  unfold get. apply trace_bind; [by apply trace_emit|]. intros _.
  destruct (http_get w url); [apply trace_ret | apply trace_raise].
Qed.

Lemma trace_print m : trace P (print m).
Proof. by apply trace_emit. Qed.

Lemma trace_fetch_mikrotik : trace P (fetch_mikrotik w).
Proof.
  unfold fetch_mikrotik, mikrotik_crawl.
  apply trace_bind; [apply trace_print|]. intros _.
  apply trace_bind; [apply trace_get|]. intros soup.
  apply trace_bind; [apply trace_print|]. intros _.
  apply trace_bind.
  - apply trace_for_each. intros rows url. apply trace_try.
    + apply trace_bind; [apply trace_get | intros; apply trace_ret].
    + apply trace_bind; [apply trace_print | intros; apply trace_ret].
  - intros rows. apply trace_bind; [apply trace_print | intros; apply trace_ret].
Qed.

Lemma trace_fetch_mimosa : trace P (fetch_mimosa w).
Proof.
  unfold fetch_mimosa.
  apply trace_bind; [apply trace_print|]. intros _.
  apply trace_bind; [apply trace_get|]. intros s.
  apply trace_bind.
  - apply trace_for_each. intros rows cat. apply trace_try; [|apply trace_ret].
    apply trace_bind; [apply trace_get | intros; apply trace_ret].
  - intros rows. apply trace_bind; [apply trace_print | intros; apply trace_ret].
Qed.

Lemma trace_fetch_cambium : trace P (fetch_cambium w).
Proof.
  unfold fetch_cambium.
  apply trace_bind; [apply trace_print|]. intros _.
  apply trace_bind; [apply trace_get|]. intros s.
  apply trace_bind.
  - apply trace_try; [|apply trace_ret].
    apply trace_bind; [apply trace_get | intros; apply trace_ret].
  - intros rows. apply trace_bind; [apply trace_print | intros; apply trace_ret].
Qed.

Lemma trace_fetch_ubiquiti use_selenium driver :
  (use_selenium && driver = true → ∀ url, P (DriverGet url)) →
  trace P (fetch_ubiquiti w use_selenium driver).
Proof.
  intros P_drv. unfold fetch_ubiquiti. apply trace_bind.
  - apply trace_for_each. intros [rows tried] url.
    destruct (decide (url ∈ tried)); [apply trace_ret|]. apply trace_try.
    + apply trace_bind; [|intros; apply trace_ret].
      destruct (use_selenium && driver); [|apply trace_get].
      unfold selenium_get. apply trace_bind; [by apply trace_emit, P_drv|].
      intros _. destruct (driver_get w url); [apply trace_ret | apply trace_raise].
    + apply trace_bind; [apply trace_print | intros; apply trace_ret].
  - intros st. apply trace_bind; [apply trace_print | intros; apply trace_ret].
Qed.

Lemma trace_run_ubiquiti use_selenium :
  (use_selenium && SELENIUM_OK w = true →
   P DriverStart ∧ P DriverQuit ∧ ∀ url, P (DriverGet url)) →
  trace P (run_ubiquiti w use_selenium).
Proof.
  intros P_drv. unfold run_ubiquiti.
  destruct (use_selenium && SELENIUM_OK w).
  - destruct (P_drv eq_refl) as (Pstart & Pquit & Pget).
    apply trace_bind; [by apply trace_emit|]. intros _.
    apply trace_bind; [destruct (chrome_starts w); [apply trace_ret | apply trace_raise]|].
    intros _. apply trace_bind; [by apply trace_fetch_ubiquiti|]. intros ub.
    apply trace_bind; [by apply trace_emit | intros; apply trace_ret].
  - apply trace_fetch_ubiquiti. done.
Qed.

Lemma trace_adapter_log a (m : M (list Row)) :
  trace P m → Forall P (adapter_log a m).
Proof.
  intros Hm. unfold adapter_log. apply Forall_app. split; [done|].
  destruct (m.2); by repeat constructor.
Qed.

Lemma trace_gather use_selenium :
  (use_selenium && SELENIUM_OK w = true →
   P DriverStart ∧ P DriverQuit ∧ ∀ url, P (DriverGet url)) →
  trace P (gather w use_selenium).
Proof.
  intros P_drv. unfold trace. rewrite gather_spec. cbn [fst].
  apply Forall_app; split; [apply trace_adapter_log, trace_fetch_mikrotik|].
  apply Forall_app; split; [by apply trace_adapter_log, trace_run_ubiquiti|].
  apply Forall_app; split; [apply trace_adapter_log, trace_fetch_cambium|].
  apply trace_adapter_log, trace_fetch_mimosa.
Qed.

End AdapterTraces.

Section RunTrace.
Context `{PyRuntime} (w : World).

(** The events of [run_all] after the adapters. *)
Lemma run_all_trace use_selenium (P Q : Event → Prop) :
  trace P (gather w use_selenium) →
  (∀ m, Q (Print m)) → (∀ path text, Q (WriteFile path text)) →
  (∀ path rows, Q (WriteBrandCsv path rows)) →
  ∃ ev_out,
    (run_all w use_selenium).1 = (gather w use_selenium).1 ++ ev_out
    ∧ Forall P (gather w use_selenium).1 ∧ Forall Q ev_out.
Proof.
  intros HP Qp Qw Qb. pose proof (gather_spec w use_selenium) as Hg.
  set (rows_all := contribution (fetch_mikrotik w) ++ _) in Hg.
  set (ev := adapter_log MikroTik _ ++ _) in Hg.
  rewrite (run_all_unfold w use_selenium _ _ Hg). unfold trace in HP.
  rewrite Hg in *. rewrite bind_some. cbn [fst] in *.
  eexists. split; [reflexivity|]. split; [done|].
  match goal with |- Forall Q (?m).1 => change (trace Q m) end.
  apply trace_bind.
  { unfold save_to_csv. apply trace_bind; [by apply trace_emit|]. intros _.
    apply trace_bind; [by apply trace_emit | intros; apply trace_ret]. }
  intros path. apply trace_bind.
  { unfold groupby_brand. destruct (dedupe_global rows_all);
      [apply trace_raise | apply trace_ret]. }
  intros groups. apply trace_bind.
  { apply trace_for_each. intros [] bg.
    apply trace_bind; [by apply trace_emit | intros; by apply trace_emit]. }
  intros _. apply trace_bind; [by apply trace_emit | intros; apply trace_ret].
Qed.

End RunTrace.

(** X9. In a run, every write to a file comes after every request: the
    trace of [run_all] is the trace of the adapters, which write nothing,
    followed by events that are no request (HTTP or browser). *)
Theorem writes_come_after_requests `{PyRuntime} (w : World)
    (use_selenium : bool) :
  ∃ ev_out,
    (run_all w use_selenium).1 = (gather w use_selenium).1 ++ ev_out
    ∧ Forall (λ e, ¬ is_write e) (gather w use_selenium).1
    ∧ Forall (λ e, ¬ is_request e) ev_out.
Proof.
  apply run_all_trace; try (intros; simpl; tauto).
  apply trace_gather; intros; simpl; tauto.
Qed.

(** X10. When the flag is not given, or selenium is not installed, the
    run never touches the browser driver. *)
Theorem no_driver_without_flag `{PyRuntime} (w : World) (use_selenium : bool) :
  use_selenium && SELENIUM_OK w = false →
  Forall (λ e, ¬ is_driver e) (main w use_selenium).1.
Proof.
  intros Hflag. unfold main.
  destruct (use_selenium && negb (SELENIUM_OK w));
    [repeat constructor; simpl; tauto|].
  destruct (run_all_trace w use_selenium
              (λ e, ¬ is_driver e) (λ e, ¬ is_driver e))
    as (ev_out & Hrun & Hg & Hout); try (intros; simpl; tauto).
  { apply trace_gather; try (intros; simpl; tauto). by rewrite Hflag. }
  destruct (run_all w use_selenium) as [ev [path|]]; simpl in *; subst ev;
    apply Forall_app; by split.
Qed.

Lemma no_driver_without_flag_witness :
  false && SELENIUM_OK offline_world = false
  ∧ Forall (λ e, ¬ is_driver e) (@main example_runtime offline_world false).1.
Proof.
  split; [reflexivity|].
  exact (@no_driver_without_flag example_runtime offline_world false eq_refl).
Defined.

(** ** The pages the Ubiquiti adapter asks for *)

Lemma page_requests_app ev ev' :
  page_requests (ev ++ ev') = page_requests ev ++ page_requests ev'.
Proof. apply omap_app. Qed.

Section UbiquitiSchedule.
Context `{PyRuntime} (w : World) (use_selenium driver : bool).

(** One turn of the loop of lines 274-300 on a URL not tried yet. *)
Lemma ubiquiti_turn (url : pystr) (rows : list Row) (tried : gset pystr) :
  url ∉ tried →
  ∃ ev rows',
    (if decide (url ∈ tried) then ret (rows, tried)
     else
       let tried := {[url]} ∪ tried in
       try_except
         (s ← (if use_selenium && driver then selenium_get w url else get w url);
          ret (ubiquiti_page url s rows, tried))
         (print (MsgSkip Ubiquiti url);; ret (rows, tried)))
    = (ev, Some (rows', {[url]} ∪ tried))
    ∧ page_requests ev = [(use_selenium && driver, url)].
Proof.
  intros Hnew. rewrite decide_False by done.
  destruct (use_selenium && driver).
  - unfold selenium_get. destruct (driver_get w url) as [s|];
      eexists _, _; split; reflexivity.
  - unfold get. destruct (http_get w url) as [s|];
      eexists _, _; split; reflexivity.
Qed.

Lemma ubiquiti_loop urls :
  ∀ (rows : list Row) (tried : gset pystr),
    NoDup urls → (∀ url, url ∈ urls → url ∉ tried) →
    ∃ ev st,
      for_each urls (rows, tried)
        (λ st url,
           let '(rows, tried) := st in
           if decide (url ∈ tried) then ret (rows, tried)
           else
             let tried := {[url]} ∪ tried in
             try_except
               (s ← (if use_selenium && driver then selenium_get w url
                     else get w url);
                ret (ubiquiti_page url s rows, tried))
               (print (MsgSkip Ubiquiti url);; ret (rows, tried)))
      = (ev, Some st)
      ∧ page_requests ev = map (pair (use_selenium && driver)) urls.
Proof.
  match goal with |- context [for_each _ _ ?b] => set (body := b) end.
  induction urls as [|url urls IH]; intros rows tried Hnd Hnew.
  - eexists _, _. split; reflexivity.
  - apply NoDup_cons in Hnd as [Hurl Hnd].
    destruct (ubiquiti_turn url rows tried) as (ev1 & rows' & Hturn & Hreq);
      [apply Hnew; by left|].
    change (body (rows, tried) url = (ev1, Some (rows', {[url]} ∪ tried)))
      in Hturn.
    destruct (IH rows' ({[url]} ∪ tried) Hnd) as (ev2 & st & Hloop & Hreq2).
    { intros u Hu. apply not_elem_of_union. split; [|apply Hnew; by right].
      rewrite elem_of_singleton. by intros ->. }
    exists (ev1 ++ ev2), st. split.
    + cbn [for_each]. rewrite bind_unfold.
      rewrite Hturn, bind_some, Hloop. reflexivity.
    + by rewrite page_requests_app, Hreq, Hreq2.
Qed.

End UbiquitiSchedule.

(** X11. Whatever the sites answer, the Ubiquiti adapter asks for its six
    pages, each once, in the order of the source; it asks through the
    browser exactly when it was given the flag and a driver. *)
Theorem ubiquiti_requests `{PyRuntime} (w : World) (use_selenium driver : bool) :
  page_requests (fetch_ubiquiti w use_selenium driver).1
  = map (pair (use_selenium && driver))
      [py "https://www.ui.com/unifi/"; py "https://www.ui.com/edge/";
       py "https://store.ui.com/collections/all";
       py "https://store.ui.com/collections/unifi";
       py "https://store.ui.com/collections/ubiquiti";
       py "https://www.ui.com/collections/unifi"].
Proof.
  unfold fetch_ubiquiti.
  destruct (ubiquiti_loop w use_selenium driver ubiquiti_urls [] ∅)
    as (ev & st & Hloop & Hreq).
  { apply (bool_decide_unpack _). vm_compute. exact I. }
  { intros url _. apply not_elem_of_empty. }
  rewrite bind_unfold.
  match goal with
  | |- context [bind ?m _] =>
      replace m with (ev, Some st) by (symmetry; exact Hloop)
  end.
  rewrite bind_some. cbn [fst].
  rewrite page_requests_app, Hreq. cbn. by rewrite ?app_nil_r.
Qed.

(** ** No row without a model *)

Section Names.
Context `{PyRuntime} (w : World).

Lemma truthy_nonempty (s : pystr) : truthy s = true → s ≠ [].
Proof. by destruct s. Qed.

Lemma set_category_named a c r : named_row a r → named_row a (set_category c r).
Proof. done. Qed.

Lemma mikrotik_page_rows_named url :
  Forall (named_row MikroTik) (mikrotik_page_rows w url).
Proof.
  unfold mikrotik_page_rows. destruct (http_get w url) as [s|]; [|done].
  unfold mikrotik_page, mikrotik_selectors.
  rewrite mikrotik_selectors_spec. cbn [fst snd app].
  apply Forall_fold_left.
  - intros st card Hst. unfold mikrotik_card.
    destruct (truthy (clean_text _)) eqn:Ht; [|done].
    rewrite first_line_clean_text, Ht. cbn [andb].
    destruct (length _ <? 120)%nat eqn:Hlen; [|done].
    apply Forall_snoc; [done|]. split; simpl.
    + by apply truthy_nonempty.
    + intros _. by apply Nat.ltb_lt.
  - apply Forall_flat_map. intros sel. apply Forall_flat_map. intros el.
    unfold mikrotik_candidate, candidate_kept.
    destruct (truthy _) eqn:Ht; [|done]. cbn [andb].
    destruct (length _ <? 120)%nat eqn:Hlen; [|done].
    constructor; [|done]. split; simpl; [by apply truthy_nonempty|].
    intros _. by apply Nat.ltb_lt.
Qed.

Lemma fetch_mikrotik_named :
  Forall (named_row MikroTik) (contribution (fetch_mikrotik w)).
Proof.
  destruct (http_get w (py "https://mikrotik.com/products")) as [soup|] eqn:Hs.
  - rewrite (fetch_mikrotik_spec w soup Hs). unfold contribution; simpl.
    unfold assign_categories. apply Forall_fmap.
    eapply Forall_impl; [|intros r Hr; apply set_category_named, Hr].
    apply dedupe_by_Forall, Forall_flat_map, mikrotik_page_rows_named.
  - unfold contribution. by rewrite fetch_mikrotik_raises.
Qed.

Lemma products_anchor_named a base brand_name rows anchor :
  a ≠ MikroTik →
  Forall (named_row a) rows →
  Forall (named_row a) (products_anchor base brand_name rows anchor).
Proof.
  intros Ha Hrows. unfold products_anchor.
  destruct (_ && _); [|done]. destruct (truthy _) eqn:Ht; [|done].
  apply Forall_snoc; [done|]. split; [by apply truthy_nonempty | done].
Qed.

Lemma fetch_mimosa_named :
  Forall (named_row Mimosa) (contribution (fetch_mimosa w)).
Proof.
  assert (Hanchor : ∀ rows anchor,
             Forall (named_row Mimosa) rows →
             Forall (named_row Mimosa)
               (products_anchor mimosa_base (py "Mimosa") rows anchor)).
  { intros rows anchor. by apply products_anchor_named. }
  apply post_contribution. unfold fetch_mimosa.
  apply post_bind_any; intros _. apply post_bind_any; intros s.
  eapply post_bind.
  - apply (post_for_each (Forall (named_row Mimosa))).
    + by apply Forall_fold_left.
    + intros rows cat Hrows. apply post_try; [|by apply post_ret].
      apply post_bind_any; intros ss. apply post_ret.
      by apply Forall_fold_left.
  - intros rows Hrows. apply post_bind_any; intros _. apply post_ret.
    by apply dedupe_by_Forall.
Qed.

Lemma fetch_cambium_named :
  Forall (named_row Cambium) (contribution (fetch_cambium w)).
Proof.
  assert (Hanchor : ∀ rows anchor,
             Forall (named_row Cambium) rows →
             Forall (named_row Cambium)
               (products_anchor cambium_base (py "Cambium") rows anchor)).
  { intros rows anchor. by apply products_anchor_named. }
  apply post_contribution. unfold fetch_cambium.
  apply post_bind_any; intros _. apply post_bind_any; intros s.
  eapply post_bind.
  - apply (post_try (Forall (named_row Cambium))).
    + apply post_bind_any; intros s2. apply post_ret.
      apply Forall_fold_left; [|by apply Forall_fold_left].
      intros rows el Hrows. unfold cambium_finder_element.
      destruct (truthy _) eqn:Ht; [|done]. apply Forall_snoc; [done|].
      rewrite first_line_clean_text. split; [by apply truthy_nonempty | done].
    + apply post_ret. by apply Forall_fold_left.
  - intros rows Hrows. apply post_bind_any; intros _. apply post_ret.
    by apply dedupe_by_Forall.
Qed.

Lemma ubiquiti_page_named url s rows :
  Forall (named_row Ubiquiti) rows →
  Forall (named_row Ubiquiti) (ubiquiti_page url s rows).
Proof.
  intros Hrows. unfold ubiquiti_page. apply Forall_fold_left.
  - intros st a Hst. unfold ubiquiti_anchor.
    destruct (_ || _); [|done]. destruct (truthy _) eqn:Ht; [|done].
    apply Forall_snoc; [done|]. split; [by apply truthy_nonempty | done].
  - rewrite ubiquiti_select_spec. apply Forall_app. split; [done|].
    apply Forall_flat_map. intros sel. apply Forall_flat_map. intros el.
    unfold ubiquiti_candidate, candidate_kept.
    destruct (truthy _) eqn:Ht; [|done]. cbn [andb].
    destruct (_ <? _)%nat; [|done].
    constructor; [|done]. split; [by apply truthy_nonempty | done].
Qed.

Lemma run_ubiquiti_named use_selenium :
  Forall (named_row Ubiquiti) (contribution (run_ubiquiti w use_selenium)).
Proof.
  assert (Hfetch : ∀ u d, post (Forall (named_row Ubiquiti)) (fetch_ubiquiti w u d)).
  { intros u d. unfold fetch_ubiquiti.
    eapply (post_bind (λ st, Forall (named_row Ubiquiti) st.1)).
    - apply (post_for_each (λ st, Forall (named_row Ubiquiti) st.1)); [done|].
      intros [rows tried] url Hrows. simpl in Hrows.
      destruct (decide (url ∈ tried)); [by apply post_ret|].
      apply post_try.
      + apply post_bind_any; intros s. apply post_ret. simpl.
        by apply ubiquiti_page_named.
      + apply post_bind_any; intros _. by apply post_ret.
    - intros st Hst. apply post_bind_any; intros _. apply post_ret.
      by apply dedupe_by_Forall. }
  apply post_contribution. unfold run_ubiquiti.
  destruct (use_selenium && SELENIUM_OK w); [|apply Hfetch].
  apply post_bind_any; intros _. apply post_bind_any; intros _.
  eapply post_bind; [apply Hfetch|].
  intros ub Hub. apply post_bind_any; intros _. by apply post_ret.
Qed.

End Names.

(** X12. No row that an adapter returns has an empty model: every row is
    built under a test that its cleaned text is not empty. The models of
    the MikroTik rows are moreover shorter than 120 characters, from both
    loops of the page. So no row gathered, and no row exported, has an
    empty model. *)
Theorem rows_have_a_model `{PyRuntime} (w : World) (use_selenium : bool) :
  Forall (λ r, model r ≠ [] ∧ (length (model r) < 120)%nat)
         (contribution (fetch_mikrotik w))
  ∧ Forall (λ r, model r ≠ []) (contribution (gather w use_selenium))
  ∧ Forall (λ r, model r ≠ [])
           (dedupe_global (contribution (gather w use_selenium))).
Proof.
  split.
  - eapply Forall_impl; [apply fetch_mikrotik_named|].
    intros r [Hne Hlen]. split; [done | by apply Hlen].
  - assert (Hall : Forall (λ r, model r ≠ []) (contribution (gather w use_selenium))).
    { rewrite gather_spec. unfold contribution at 1. cbn [snd default].
      repeat (apply Forall_app; split);
        (eapply Forall_impl;
         [first [apply fetch_mikrotik_named | apply run_ubiquiti_named
                | apply fetch_cambium_named | apply fetch_mimosa_named]|]);
        by intros r [Hne _]. }
    split; [done | by apply dedupe_by_Forall].
Qed.

(** ** The pages the MikroTik adapter asks for *)

Lemma startswith_app_l p q s :
  Str.startswith (p ++ q) s = true → Str.startswith p s = true.
Proof.
  revert s. induction p as [|a p IH]; intros s; [done|].
  destruct s as [|b s]; simpl; [done|].
  intros [Hab Hs]%andb_prop. rewrite Hab. by apply IH.
Qed.

(** The three tests of line 81 come down to the first. *)
Lemma mikrotik_link_test href :
  Str.startswith (py "/product") href
  || Str.startswith (py "/products/group") href
  || Str.startswith (py "/products/") href
  = Str.startswith (py "/product") href.
Proof.
  destruct (Str.startswith (py "/product") href) eqn:H1; [done|].
  destruct (Str.startswith (py "/products/group") href) eqn:H2.
  { apply (startswith_app_l (py "/product") (py "s/group")) in H2. congruence. }
  destruct (Str.startswith (py "/products/") href) eqn:H3; [|done].
  apply (startswith_app_l (py "/product") (py "s/")) in H3. congruence.
Qed.

#[global] Instance str_le_total : Total str_le.
Proof.
  intros s. unfold str_le. induction s as [|a s IH]; intros t.
  - left. by destruct t.
  - destruct t as [|b t]; [by right|]. simpl.
    destruct (N.ltb_spec a b), (N.ltb_spec b a), (N.eqb_spec a b),
      (N.eqb_spec b a); simpl; try lia; try tauto.
    apply IH.
Qed.

Section MikroTikSchedule.
Context `{PyRuntime}.

Lemma mikrotik_links_elem soup url :
  url ∈ mikrotik_links soup
  ↔ url ∈ group_pages
    ∨ ∃ a, a ∈ anchors soup
           ∧ Str.startswith (py "/product") (a_href a) = true
           ∧ url = urljoin mikrotik_base (a_href a).
Proof.
  unfold mikrotik_links.
  assert (Hgroups : ∀ l (X : gset pystr),
             url ∈ fold_left (λ (links : gset pystr) gp, {[gp]} ∪ links) l X
             ↔ url ∈ l ∨ url ∈ X).
  { induction l as [|gp l IH]; intros X; simpl; [set_solver|].
    rewrite IH. set_solver. }
  assert (Hanchors : ∀ l (X : gset pystr),
             url ∈ fold_left
                     (λ (links : gset pystr) a,
                        let href := a_href a in
                        if Str.startswith (py "/product") href
                           || Str.startswith (py "/products/group") href
                           || Str.startswith (py "/products/") href
                        then {[urljoin mikrotik_base href]} ∪ links else links)
                     l X
             ↔ (∃ a, a ∈ l ∧ Str.startswith (py "/product") (a_href a) = true
                     ∧ url = urljoin mikrotik_base (a_href a))
               ∨ url ∈ X).
  { induction l as [|a l IH]; intros X; cbn [fold_left].
    - split; [by right|]. intros [(a & Ha%elem_of_nil & _)|?]; done.
    - rewrite IH. cbv zeta. rewrite mikrotik_link_test.
      destruct (Str.startswith (py "/product") (a_href a)) eqn:Ha.
      + rewrite elem_of_union, elem_of_singleton. split.
        * intros [(a' & Ha' & Hs & ->)|[->|?]]; [left|left|by right].
          -- exists a'. split; [by right | done].
          -- exists a. split; [by left | done].
        * intros [(a' & [->|Ha']%elem_of_cons & Hs & ->)|?].
          -- right. by left.
          -- left. by exists a'.
          -- right. by right.
      + split.
        * intros [(a' & Ha' & Hs & ->)|?]; [left|by right].
          exists a'. split; [by right | done].
        * intros [(a' & [->|Ha']%elem_of_cons & Hs & ->)|?];
            [congruence | left; by exists a' | by right]. }
  rewrite Hgroups, Hanchors. split.
  - intros [Hg|[Ha|He]]; [by left | by right | by apply not_elem_of_empty in He].
  - intros [Hg|Ha]; [by left | right; by left].
Qed.

Lemma sorted_elem (links : gset pystr) url : url ∈ sorted links ↔ url ∈ links.
Proof. unfold sorted. by rewrite merge_sort_Permutation, elem_of_elements. Qed.

Lemma sorted_NoDup (links : gset pystr) : NoDup (sorted links).
Proof. unfold sorted. rewrite merge_sort_Permutation. apply NoDup_elements. Qed.

Lemma crawl_requests (w : World) urls :
  page_requests
    (flat_map (λ url, HttpGet url ::
                      match http_get w url with
                      | Some _ => []
                      | None => [Print (MsgSkip MikroTik url)]
                      end) urls)
  = map (pair false) urls.
Proof.
  induction urls as [|url urls IH]; [done|].
  cbn [flat_map map].
  change (?e :: ?l ++ ?l') with ([e] ++ l ++ l').
  rewrite !page_requests_app, IH. by destruct (http_get w url).
Qed.

End MikroTikSchedule.

(** X13. Once its start page answered, the MikroTik adapter asks for the
    candidate pages one after the other, each once, in increasing order of
    the URL; the candidates are the six group pages and the targets of the
    anchors of the start page whose [href] starts with [/product]. *)
Theorem mikrotik_requests `{PyRuntime} (w : World) (soup : Page) :
  http_get w (py "https://mikrotik.com/products") = Some soup →
  page_requests (fetch_mikrotik w).1
  = (false, py "https://mikrotik.com/products")
    :: map (pair false) (sorted (mikrotik_links soup))
  ∧ NoDup (sorted (mikrotik_links soup))
  ∧ Sorted str_le (sorted (mikrotik_links soup))
  ∧ ∀ url, url ∈ sorted (mikrotik_links soup)
           ↔ url ∈ group_pages
             ∨ ∃ a, a ∈ anchors soup
                    ∧ Str.startswith (py "/product") (a_href a) = true
                    ∧ url = urljoin mikrotik_base (a_href a).
Proof.
  intros Hs. split; [|split; [|split]].
  - rewrite (fetch_mikrotik_spec w soup Hs). cbn [fst].
    rewrite !page_requests_app, crawl_requests. cbn. by rewrite ?app_nil_r.
  - apply sorted_NoDup.
  - apply Sorted_merge_sort, _.
  - intros url. rewrite sorted_elem. apply mikrotik_links_elem.
Qed.

Lemma mikrotik_requests_witness :
  http_get one_product_world (py "https://mikrotik.com/products")
  = Some (mkPage (λ _, []) [mkAnchor (py "/product/crs326") (py "CRS326")])
  ∧ length (page_requests (@fetch_mikrotik example_runtime one_product_world).1)
    = 8%nat.
Proof.
  split; [reflexivity|].
  rewrite (proj1 (@mikrotik_requests example_runtime one_product_world _ eq_refl)).
  vm_compute. reflexivity.
Defined.

(** ** Tests on links *)

Lemma startswith_split p s :
  Str.startswith p s = true → ∃ rest, s = p ++ rest.
Proof.
  revert s. induction p as [|a p IH]; intros s; [by exists s|].
  destruct s as [|b s]; simpl; [done|].
  intros [Hab Hs]%andb_prop. apply N.eqb_eq in Hab as ->.
  destruct (IH s Hs) as [rest ->]. by exists rest.
Qed.

Lemma count_app c s t : Str.count c (s ++ t) = (Str.count c s + Str.count c t)%nat.
Proof. unfold Str.count. by rewrite filter_app, length_app. Qed.

(** X14. The tests on links have parts that never decide: an [href] that
    starts with [/products/group] or [/products/] starts with [/product],
    and an [href] that starts with [/products/] has two slashes. So the
    MikroTik link test of line 81 is its first test, and the Mimosa and
    Cambium loops keep an anchor exactly when its [href] starts with
    [/products/] and its cleaned text is not empty. *)
Theorem link_tests `{PyRuntime} (href : pystr) :
  Str.startswith (py "/product") href
  || Str.startswith (py "/products/group") href
  || Str.startswith (py "/products/") href
  = Str.startswith (py "/product") href
  ∧ Str.startswith (py "/products/") href && (2 <=? Str.count 47 href)%nat
    = Str.startswith (py "/products/") href
  ∧ ∀ base brand_name rows a,
      products_anchor base brand_name rows a
      = if Str.startswith (py "/products/") (a_href a)
           && truthy (clean_text (Some (a_text a)))
        then rows ++ [mkRow (py "ptp") brand_name (clean_text (Some (a_text a)))
                        (urljoin base (a_href a))]
        else rows.
Proof.
  assert (Hcount : ∀ h, Str.startswith (py "/products/") h
                        && (2 <=? Str.count 47 h)%nat
                        = Str.startswith (py "/products/") h).
  { intros h. destruct (Str.startswith (py "/products/") h) eqn:Hs; [|done].
    destruct (startswith_split _ _ Hs) as [rest ->].
    rewrite count_app. change (Str.count 47 (py "/products/")) with 2%nat.
    reflexivity. }
  split; [apply mikrotik_link_test|]. split; [apply Hcount|].
  intros base brand_name rows a. unfold products_anchor. rewrite Hcount.
  destruct (Str.startswith _ _); [|done]. by destruct (truthy _).
Qed.

(** ** The classifier's keywords *)

Lemma contains_tail a p s :
  Str.contains (a :: p) s = true → Str.contains p s = true.
Proof.
  induction s as [|b s IH]; simpl; [by rewrite orb_false_r|].
  intros [Hs|Hc]%orb_prop.
  - apply andb_prop in Hs as [_ Hs]. apply orb_true_intro. right.
    destruct s as [|c s]; simpl in *;
      destruct p; simpl in *; try done; by rewrite Hs.
  - apply orb_true_intro. right. by apply IH.
Qed.

Lemma startswith_elem p s c :
  Str.startswith p s = true → c ∈ p → c ∈ s.
Proof.
  intros [rest ->]%startswith_split Hc. apply elem_of_app. by left.
Qed.

Lemma contains_elem p s c : Str.contains p s = true → c ∈ p → c ∈ s.
Proof.
  induction s as [|b s IH]; simpl.
  - rewrite orb_false_r. apply startswith_elem.
  - intros [Hs|Hc]%orb_prop Hin.
    + by eapply startswith_elem.
    + right. by apply IH.
Qed.

Lemma latin1_lower_not_upper c : Str.latin1_lower c ≠ 65.
Proof.
  destruct (latin1_lower_cases c) as [[Hc ->]|[(Hc & Hx & ->)|(Hc & Hx & ->)]];
    lia.
Qed.

Lemma lower_no_capital_A `{PyRuntime} m :
  Str.is_latin1 m = true → 65 ∉ lower m.
Proof.
  intros Hl. unfold lower. rewrite Hl.
  intros (c & Hc & _)%list_elem_of_fmap. symmetry in Hc.
  by apply latin1_lower_not_upper in Hc.
Qed.

(** X15. For a model name in Latin-1 the classifier decides as with the
    shorter keyword lists: [switch] is listed twice, [hap] and [cap] can
    match only where [ap] matches, and [wAP] never matches a lowercased
    name. *)
Theorem classify_keywords `{PyRuntime} (m : pystr) :
  Str.is_latin1 m = true → classify m = classify_effective m.
Proof.
  intros Hl. unfold classify, classify_effective, any_in,
    switch_keywords, ap_keywords, ptp_keywords.
  cbn [existsb].
  assert (Hwap : Str.contains (py "wAP") (lower m) = false).
  { destruct (Str.contains (py "wAP") (lower m)) eqn:Hc; [|done].
    exfalso. apply (lower_no_capital_A m Hl).
    eapply contains_elem; [exact Hc|]. vm_compute. right. left. }
  rewrite Hwap.
  destruct (Str.contains (py "switch") (lower m));
    destruct (Str.contains (py "crs") (lower m));
    destruct (Str.contains (py "sfp") (lower m));
    destruct (Str.contains (py "sg") (lower m)); try reflexivity.
  cbn [orb].
  destruct (Str.contains (py "ap") (lower m)) eqn:Hap.
  - by rewrite !orb_true_r.
  - assert (Hhap : Str.contains (py "hap") (lower m) = false).
    { destruct (Str.contains (py "hap") (lower m)) eqn:Hc; [|done].
      apply (contains_tail 104 (py "ap")) in Hc. congruence. }
    assert (Hcap : Str.contains (py "cap") (lower m) = false).
    { destruct (Str.contains (py "cap") (lower m)) eqn:Hc; [|done].
      apply (contains_tail 99 (py "ap")) in Hc. congruence. }
    by rewrite Hhap, Hcap.
Qed.

Lemma classify_keywords_witness :
  Str.is_latin1 hAP_ac2 = true
  ∧ @classify example_runtime hAP_ac2 = @classify_effective example_runtime hAP_ac2.
Proof.
  split; [reflexivity|].
  exact (@classify_keywords example_runtime hAP_ac2 eq_refl).
Defined.

(** ** The names of the per-brand files *)

Lemma latin1_lower_stem c :
  is_ascii_alnum c = true ∨ c = 95 → stem_char (Str.latin1_lower c).
Proof.
  unfold is_ascii_alnum, stem_char. intros Hc.
  destruct (latin1_lower_cases c) as [[Hr ->]|[(Hr & Hx & ->)|(Hr & Hx & ->)]].
  - lia.
  - exfalso. destruct Hc as [Hc| ->]; [|lia]. revert Hc.
    split_codepoint; done.
  - destruct Hc as [Hc| ->]; [|lia]. revert Hc.
    split_codepoint; simpl; intros; try done; lia.
Qed.

Lemma latin1_lower_underscore c : Str.latin1_lower c = 95 → c = 95.
Proof.
  destruct (latin1_lower_cases c) as [[Hr ->]|[(Hr & Hx & ->)|(Hr & Hx & ->)]];
    lia.
Qed.

(** X16. The stem of a per-brand file name is made of lowercase ASCII
    letters, digits and underscores, and neither starts nor ends with an
    underscore, whatever the brand. *)
Theorem brand_file_stem_shape `{PyRuntime} (b : pystr) :
  Forall stem_char (brand_file_stem b)
  ∧ (∀ c t, brand_file_stem b = c :: t → c ≠ 95)
  ∧ (∀ t c, brand_file_stem b = t ++ [c] → c ≠ 95).
Proof.
  unfold brand_file_stem.
  set (u := Str.strip_by (λ c, c =? 95)
              (Str.sub_runs (λ c, negb (is_ascii_alnum c)) 95 b)).
  assert (Hu : ∀ c, c ∈ u → is_ascii_alnum c = true ∨ c = 95).
  { intros c Hc%strip_by_elem. apply sub_runs_from_elem in Hc as [->|Hc];
      [by right | left]. by apply negb_false_iff. }
  assert (Hl : Str.is_latin1 u = true).
  { unfold Str.is_latin1. apply forallb_forall. intros c Hc%list_elem_of_In.
    apply N.ltb_lt. destruct (Hu c Hc) as [Ha | ->]; [|lia].
    unfold is_ascii_alnum in Ha. revert Ha. split_codepoint; simpl; intros; try done; lia. }
  unfold lower. rewrite Hl. split; [|split].
  - apply Forall_fmap, Forall_forall. intros c Hc.
    by apply latin1_lower_stem, Hu.
  - intros c t Heq. destruct u as [|c0 u'] eqn:Hueq; [done|].
    simpl in Heq. injection Heq as <- _.
    intros Hc%latin1_lower_underscore. subst c0.
    apply strip_by_head_false in Hueq. done.
  - intros t c Heq.
    destruct (rev u) as [|c0 ru] eqn:Hrev.
    { apply (f_equal (@rev N)) in Hrev. rewrite rev_involutive in Hrev.
      rewrite Hrev in Heq. by destruct t. }
    apply (f_equal (@rev N)) in Hrev. rewrite rev_involutive in Hrev.
    simpl in Hrev. rewrite Hrev, map_app in Heq. simpl in Heq.
    apply app_inj_tail in Heq as [_ Hc].
    intros ->. apply latin1_lower_underscore in Hc. subst c0.
    unfold u, Str.strip_by in Hrev. by apply rstrip_by_last_false in Hrev.
Qed.

(** ** The per-brand files *)

Lemma filter_brand_cons (b : pystr) (r : Row) (l : list Row) :
  filter (λ r, brand r = b) (r :: l)
  = if decide (brand r = b) then r :: filter (λ r, brand r = b) l
    else filter (λ r, brand r = b) l.
Proof. reflexivity. Qed.

Lemma groups_cons (bs : list pystr) (r : Row) (l : list Row) :
  NoDup bs → brand r ∈ bs →
  concat (map (λ b, filter (λ r, brand r = b) (r :: l)) bs)
  ≡ₚ r :: concat (map (λ b, filter (λ r, brand r = b) l) bs).
Proof.
  induction bs as [|b bs IH]; intros Hnd Hin; [by apply elem_of_nil in Hin|].
  apply NoDup_cons in Hnd as [Hb Hnd]. cbn [map concat].
  rewrite filter_brand_cons. destruct (decide (brand r = b)) as [Heq|Hne].
  - assert (Hmap : map (λ b, filter (λ r, brand r = b) (r :: l)) bs
                   = map (λ b, filter (λ r, brand r = b) l) bs).
    { apply map_ext_in. intros b' Hb'.
      rewrite filter_brand_cons, decide_False; [done|].
      intros Heq'. apply Hb. rewrite <-Heq, Heq'. by apply list_elem_of_In. }
    by rewrite Hmap.
  - apply elem_of_cons in Hin as [?|Hin]; [done|].
    rewrite (IH Hnd Hin). by rewrite Permutation_middle.
Qed.

Lemma groups_partition (bs : list pystr) (l : list Row) :
  NoDup bs → (∀ r, r ∈ l → brand r ∈ bs) →
  concat (map (λ b, filter (λ r, brand r = b) l) bs) ≡ₚ l.
Proof.
  intros Hnd. induction l as [|r l IH]; intros Hin.
  - clear. induction bs as [|b bs IH]; [done|]. by cbn [map concat].
  - rewrite groups_cons; [|done|apply Hin; by left].
    apply Permutation_skip, IH. intros r' Hr'. apply Hin. by right.
Qed.

Lemma brand_csvs_app ev ev' : brand_csvs (ev ++ ev') = brand_csvs ev ++ brand_csvs ev'.
Proof. apply omap_app. Qed.

Section BrandFiles.
Context `{PyRuntime} (w : World).

Lemma brand_loop (groups : list (pystr * list Row)) :
  ∃ ev,
    for_each groups tt (λ _ bg,
      let bn := brand_file_stem bg.1 in
      let subpath :=
        OUTPUT_DIR ++ py "/" ++ bn ++ py "_" ++ utcnow w ++ py ".csv" in
      emit (WriteBrandCsv subpath bg.2);;
      print (MsgSavedBrand subpath))
    = (ev, Some tt)
    ∧ brand_csvs ev = groups.*2.
Proof.
  match goal with |- context [for_each _ _ ?b] => set (body := b) end.
  induction groups as [|bg groups (ev & Hloop & Hev)].
  - by exists [].
  - assert (Hbody : ∃ path, body tt bg
                            = ([WriteBrandCsv path bg.2; Print (MsgSavedBrand path)],
                               Some tt))
      by (eexists; reflexivity).
    destruct Hbody as [path Hbody].
    eexists. cbn [for_each]. rewrite bind_unfold, Hbody, bind_some, Hloop.
    cbn [fst snd]. split; [reflexivity|].
    change (?e :: ?e' :: ?l) with ([e; e'] ++ l).
    rewrite brand_csvs_app, Hev. reflexivity.
Qed.

Lemma save_to_csv_spec rows filename :
  save_to_csv rows filename
  = ([WriteFile (OUTPUT_DIR ++ py "/" ++ filename) (csv_text rows);
      Print (MsgSaved (length rows) (OUTPUT_DIR ++ py "/" ++ filename))],
     Some (OUTPUT_DIR ++ py "/" ++ filename)).
Proof. reflexivity. Qed.

Lemma gather_no_brand_csv use_selenium :
  brand_csvs (gather w use_selenium).1 = [].
Proof.
  assert (Ht : trace (λ e, ¬ is_write e) (gather w use_selenium)).
  { apply trace_gather; intros; simpl; tauto. }
  unfold trace in Ht. induction Ht as [|e ev He _ IH]; [done|].
  unfold brand_csvs in *. cbn [omap list_omap]. rewrite IH. by destruct e.
Qed.

End BrandFiles.

(** X17. The per-brand files partition the export: [run_all] writes one
    file for each brand of the exported rows, in increasing order of the
    brand; each file holds the exported rows of its brand, in their order,
    and is not empty; together the files hold the exported rows, each
    once. *)
Theorem brand_files_partition `{PyRuntime} (w : World) (use_selenium : bool) :
  let unique := dedupe_global (contribution (gather w use_selenium)) in
  let brands := sorted (list_to_set (brand <$> unique)) in
  brand_csvs (run_all w use_selenium).1
  = map (λ b, filter (λ r, brand r = b) unique) brands
  ∧ NoDup brands ∧ Sorted str_le brands
  ∧ (∀ b, b ∈ brands ↔ ∃ r, r ∈ unique ∧ brand r = b)
  ∧ concat (brand_csvs (run_all w use_selenium).1) ≡ₚ unique.
Proof.
  intros unique brands.
  assert (Hb : ∀ b, b ∈ brands ↔ ∃ r, r ∈ unique ∧ brand r = b).
  { intros b. unfold brands. rewrite sorted_elem, elem_of_list_to_set.
    rewrite list_elem_of_fmap. naive_solver. }
  assert (Hcsv : brand_csvs (run_all w use_selenium).1
                 = map (λ b, filter (λ r, brand r = b) unique) brands).
  { pose proof (gather_spec w use_selenium) as Hg.
    set (rows_all := contribution (fetch_mikrotik w) ++ _) in Hg.
    set (ev := adapter_log MikroTik _ ++ _) in Hg.
    assert (Hev : brand_csvs ev = []).
    { pose proof (gather_no_brand_csv w use_selenium) as Hn. by rewrite Hg in Hn. }
    unfold brands, unique. rewrite (run_all_unfold w use_selenium _ _ Hg), Hg.
    change (contribution (ev, Some rows_all)) with rows_all.
    rewrite bind_some. cbn [fst]. rewrite brand_csvs_app, Hev. cbn [app].
    rewrite bind_unfold, save_to_csv_spec, bind_some. cbn [fst snd].
    change (brand_csvs ([?e; ?e'] ++ ?l)) with (brand_csvs l).
    destruct (dedupe_global rows_all) as [|r rest] eqn:Hu; [reflexivity|].
    assert (Hgb : groupby_brand (r :: rest)
                  = ([], Some (map (λ b, (b, filter (λ r0, brand r0 = b) (r :: rest)))
                                   (sorted (list_to_set (map brand (r :: rest)))))))
      by reflexivity.
    rewrite bind_unfold, Hgb, bind_some. cbn [fst snd app].
    rewrite bind_unfold.
    match goal with |- context [for_each ?g _ _] =>
      destruct (brand_loop w g) as (evb & Hloop & Hevb) end.
    match goal with |- context [bind ?m _] =>
      replace m with (evb, Some tt) by (symmetry; exact Hloop) end.
    rewrite bind_some. cbn [fst snd app].
    rewrite !brand_csvs_app, Hevb. cbn.
    rewrite app_nil_r, <-list_fmap_compose. reflexivity. }
  split; [done|]. split; [apply sorted_NoDup|].
  split; [apply Sorted_merge_sort, _|]. split; [done|].
  rewrite Hcsv. apply groups_partition; [apply sorted_NoDup|].
  intros r Hr. apply Hb. by exists r.
Qed.

(** ** Different rows, different files *)

Lemma parse_csv_text rows : parse_csv (csv_text rows) = Some rows.
Proof.
  unfold parse_csv. rewrite reader_csv_text.
  rewrite decide_True by done. apply rows_of_fields.
Qed.

(** X18. The export loses nothing: two different lists of rows are never
    written as the same text, whatever the fields contain (commas, quotes,
    line breaks). *)
Theorem csv_text_injective (rows1 rows2 : list Row) :
  rows1 ≠ rows2 → csv_text rows1 ≠ csv_text rows2.
Proof.
  intros Hne Heq. apply Hne.
  apply (f_equal parse_csv) in Heq. rewrite !parse_csv_text in Heq.
  by injection Heq.
Qed.

Lemma csv_text_injective_witness :
  comma_rows_1 ≠ comma_rows_2
  ∧ csv_text comma_rows_1 ≠ csv_text comma_rows_2.
Proof.
  assert (Hne : comma_rows_1 ≠ comma_rows_2) by discriminate.
  split; [exact Hne|]. exact (csv_text_injective _ _ Hne).
Defined.

(** ** The global pass works brand by brand *)

Lemma dedupe_loop_seen_ext (key : Row → Key) (seen seen' : gset Key)
    (rows : list Row) :
  (∀ r, r ∈ rows → key r ∈ seen ↔ key r ∈ seen') →
  dedupe_loop key seen [] rows = dedupe_loop key seen' [] rows.
Proof.
  revert seen seen'. induction rows as [|r rows IH]; intros seen seen' Hs; [done|].
  destruct (decide (key r ∈ seen)) as [Hin|Hnew].
  - rewrite !dedupe_loop_cons_seen; [|by apply Hs; [left|] | done].
    apply IH. intros r0 H0. apply Hs. by right.
  - rewrite !dedupe_loop_cons_new; [|rewrite <-Hs; [done | by left] | done].
    f_equal. apply IH. intros r0 H0.
    rewrite !elem_of_union, (Hs r0) by (by right). done.
Qed.

(** Lists whose keys do not meet are deduplicated side by side. *)
Lemma dedupe_by_disjoint (key : Row → Key) (a b : list Row) :
  (∀ r r', r ∈ a → r' ∈ b → key r ≠ key r') →
  dedupe_by key (a ++ b) = dedupe_by key a ++ dedupe_by key b.
Proof.
  intros Hdis. unfold dedupe_by.
  destruct (dedupe_loop_app key ∅ [] a) as (s' & u' & Hrun & Hkeys).
  rewrite Hrun. pose proof (Hrun []) as Ha. rewrite app_nil_r in Ha.
  simpl in Ha. rewrite Ha, dedupe_loop_acc. f_equal.
  apply dedupe_loop_seen_ext. intros r Hr. rewrite Hkeys. split.
  - intros [?%not_elem_of_empty|(r0 & Heq & H0)%list_elem_of_fmap]; [done|].
    exfalso. by apply (Hdis r0 r).
  - by intros ?%not_elem_of_empty.
Qed.

Section ByBrand.
Context `{PyRuntime} (w : World).

Lemma built_row_brand_key a r :
  built_row a r →
  (global_key r).1
  = match a with
    | MikroTik => py "mikrotik" | Ubiquiti => py "ubiquiti"
    | Cambium => py "cambium" | Mimosa => py "mimosa"
    end.
Proof.
  intros [Ha _]. unfold global_key. cbn [fst].
  destruct a; destruct Ha as [-> _]; reflexivity.
Qed.

Lemma built_rows_disjoint a a' (l l' : list Row) :
  a ≠ a' → Forall (built_row a) l → Forall (built_row a') l' →
  ∀ r r', r ∈ l → r' ∈ l' → global_key r ≠ global_key r'.
Proof.
  intros Hne Hl Hl' r r' Hr Hr' Heq. rewrite Forall_forall in Hl, Hl'.
  apply (f_equal fst) in Heq.
  rewrite (built_row_brand_key a r), (built_row_brand_key a' r') in Heq
    by auto.
  destruct a, a'; done.
Qed.

End ByBrand.

(** X19. The global pass never merges rows of different adapters: what it
    returns for the rows gathered is what it returns for the rows of each
    adapter, put end to end. *)
Theorem global_pass_by_adapter `{PyRuntime} (w : World) (use_selenium : bool) :
  dedupe_global (contribution (gather w use_selenium))
  = dedupe_global (contribution (fetch_mikrotik w))
    ++ dedupe_global (contribution (run_ubiquiti w use_selenium))
    ++ dedupe_global (contribution (fetch_cambium w))
    ++ dedupe_global (contribution (fetch_mimosa w)).
Proof.
  pose proof (gather_spec w use_selenium) as Hg.
  set (rows_all := contribution (fetch_mikrotik w) ++ _) in Hg.
  set (ev := adapter_log MikroTik _ ++ _) in Hg.
  rewrite Hg. change (contribution (ev, Some rows_all)) with rows_all.
  unfold rows_all. clear Hg ev rows_all.
  pose proof (fetch_mikrotik_rows w) as Hmk.
  pose proof (run_ubiquiti_rows w use_selenium) as Hub.
  pose proof (fetch_cambium_rows w) as Hcb.
  pose proof (fetch_mimosa_rows w) as Hmm.
  set (mk := contribution (fetch_mikrotik w)) in *.
  set (ub := contribution (run_ubiquiti w use_selenium)) in *.
  set (cb := contribution (fetch_cambium w)) in *.
  set (mm := contribution (fetch_mimosa w)) in *.
  unfold dedupe_global.
  rewrite (dedupe_by_disjoint global_key mk).
  2:{ intros r r' Hr [Hr'|[Hr'|Hr']%elem_of_app]%elem_of_app.
      - by apply (built_rows_disjoint MikroTik Ubiquiti mk ub).
      - by apply (built_rows_disjoint MikroTik Cambium mk cb).
      - by apply (built_rows_disjoint MikroTik Mimosa mk mm). }
  rewrite (dedupe_by_disjoint global_key ub).
  2:{ intros r r' Hr [Hr'|Hr']%elem_of_app.
      - by apply (built_rows_disjoint Ubiquiti Cambium ub cb).
      - by apply (built_rows_disjoint Ubiquiti Mimosa ub mm). }
  rewrite (dedupe_by_disjoint global_key cb); [done|].
  intros r r' Hr Hr'. by apply (built_rows_disjoint Cambium Mimosa cb mm).
Qed.

(** ** What an adapter returns is deduplicated *)

(** X20. Every adapter returns rows with pairwise distinct keys
    (lowercased brand, lowercased model); for MikroTik this still holds
    after the categories are assigned. *)
Theorem adapters_return_distinct_rows `{PyRuntime} (w : World)
    (use_selenium : bool) :
  NoDup (local_key <$> contribution (fetch_mikrotik w))
  ∧ NoDup (local_key <$> contribution (run_ubiquiti w use_selenium))
  ∧ NoDup (local_key <$> contribution (fetch_cambium w))
  ∧ NoDup (local_key <$> contribution (fetch_mimosa w)).
Proof.
  assert (Hd : ∀ rows, NoDup (local_key <$> dedupe_local rows)).
  { intros rows. apply dedupe_loop_keys. }
  assert (Hc : ∀ m : M (list Row),
             post (λ rows, NoDup (local_key <$> rows)) m →
             NoDup (local_key <$> contribution m)).
  { intros [ev [rows|]] Hm; unfold contribution; simpl; [by apply Hm | constructor]. }
  assert (Hub : ∀ u d, post (λ rows, NoDup (local_key <$> rows)) (fetch_ubiquiti w u d)).
  { intros u d. unfold fetch_ubiquiti. apply post_bind_any; intros st.
    apply post_bind_any; intros _. by apply post_ret. }
  split; [|split; [|split]]; apply Hc.
  - unfold fetch_mikrotik.
    apply post_bind_any; intros _. apply post_bind_any; intros soup.
    apply post_bind_any; intros _. apply post_bind_any; intros rows.
    apply post_bind_any; intros _. apply post_ret.
    unfold assign_categories. rewrite <-list_fmap_compose.
    assert (Hk : (local_key ∘ (λ r, set_category (classify (model r)) r))
                 = local_key) by done.
    unfold fmap, list_fmap in *. change (map (local_key ∘ ?f)) with (fmap (local_key ∘ f)).
    rewrite Hk. apply Hd.
  - unfold run_ubiquiti. destruct (use_selenium && SELENIUM_OK w); [|apply Hub].
    apply post_bind_any; intros _. apply post_bind_any; intros _.
    eapply post_bind; [apply Hub|]. intros ub Hnd.
    apply post_bind_any; intros _. by apply post_ret.
  - unfold fetch_cambium.
    apply post_bind_any; intros _. apply post_bind_any; intros s.
    apply post_bind_any; intros rows.
    apply post_bind_any; intros _. by apply post_ret.
  - unfold fetch_mimosa.
    apply post_bind_any; intros _. apply post_bind_any; intros s.
    apply post_bind_any; intros rows.
    apply post_bind_any; intros _. by apply post_ret.
Qed.

(** ** The pages the Mimosa and Cambium adapters ask for *)

Section OtherSchedules.
Context `{PyRuntime} (w : World).

Lemma get_requests url : page_requests (get w url).1 = [(false, url)].
Proof. unfold get. by destruct (http_get w url). Qed.

Lemma mimosa_loop cats :
  ∀ rows : list Row,
    ∃ ev rows',
      for_each cats rows (λ rows cat,
        try_except
          (ss ← get w (mimosa_base ++ py "/products/" ++ cat);
           ret (fold_left (products_anchor mimosa_base (py "Mimosa"))
                          (anchors ss) rows))
          (ret rows))
      = (ev, Some rows')
      ∧ page_requests ev
        = map (λ cat, (false, mimosa_base ++ py "/products/" ++ cat)) cats.
Proof.
  match goal with |- context [for_each _ _ ?b] => set (body := b) end.
  induction cats as [|cat cats IH]; intros rows.
  - eexists _, _. split; reflexivity.
  - assert (Hbody : ∃ rows1,
               body rows cat
               = ([HttpGet (mimosa_base ++ py "/products/" ++ cat)], Some rows1)).
    { unfold body, get.
      destruct (http_get w (mimosa_base ++ py "/products/" ++ cat));
        eexists; reflexivity. }
    destruct Hbody as [rows1 Hbody].
    destruct (IH rows1) as (ev & rows' & Hloop & Hreq).
    eexists _, _. cbn [for_each]. rewrite bind_unfold, Hbody, bind_some, Hloop.
    cbn [fst snd]. split; [reflexivity|].
    change (?e :: ?l) with ([e] ++ l). rewrite page_requests_app, Hreq.
    reflexivity.
Qed.

End OtherSchedules.

(** X21. The Mimosa adapter asks for its start page and, if it answers,
    for the five category pages in the order of the source, whether or not
    an earlier one failed; the Cambium adapter asks for its start page and,
    if it answers, for the product finder. If the start page fails nothing
    else is asked. *)
Theorem mimosa_cambium_requests `{PyRuntime} (w : World) :
  page_requests (fetch_mimosa w).1
  = (false, py "https://mimosa.co/products")
    :: (if http_get w (py "https://mimosa.co/products")
        then [(false, py "https://mimosa.co/products/accessories");
              (false, py "https://mimosa.co/products/antennas");
              (false, py "https://mimosa.co/products/backhaul");
              (false, py "https://mimosa.co/products/access-points");
              (false, py "https://mimosa.co/products/clients")]
        else [])
  ∧ page_requests (fetch_cambium w).1
    = (false, py "https://www.cambiumnetworks.com/products/")
      :: (if http_get w (py "https://www.cambiumnetworks.com/products/")
          then [(false, py "https://www.cambiumnetworks.com/product-finder/")]
          else []).
Proof.
  split.
  - unfold fetch_mimosa.
    change (mimosa_base ++ py "/products") with (py "https://mimosa.co/products").
    destruct (http_get w (py "https://mimosa.co/products")) as [s|] eqn:Hs.
    + rewrite (get_answer w _ _ Hs).
      unfold print, emit. rewrite !bind_unfold, !bind_some. cbn [fst snd].
      cbv zeta.
      destruct (mimosa_loop w mimosa_categories
                  (fold_left (products_anchor mimosa_base (py "Mimosa"))
                             (anchors s) []))
        as (ev & rows' & Hloop & Hreq).
      rewrite bind_unfold.
      match goal with |- context [bind ?m _] =>
        replace m with (ev, Some rows') by (symmetry; exact Hloop) end.
      rewrite bind_some. cbn [fst snd].
      change (?e :: ?e' :: ?l) with ([e; e'] ++ l).
      rewrite !page_requests_app, Hreq. reflexivity.
    + rewrite (get_failure w _ Hs). reflexivity.
  - unfold fetch_cambium.
    change (cambium_base ++ py "/products/")
      with (py "https://www.cambiumnetworks.com/products/").
    destruct (http_get w (py "https://www.cambiumnetworks.com/products/"))
      as [s|] eqn:Hs.
    + rewrite (get_answer w _ _ Hs). unfold get.
      destruct (http_get w (cambium_base ++ py "/product-finder/"));
        reflexivity.
    + rewrite (get_failure w _ Hs). reflexivity.
Qed.
